(** * VDDK build endpoints of the vSphere provider (pkg/controller/provider/web/vsphere/vddk.go)

    The development has three layers.

    - [Lease] is an interleaving model of the three operations on the
      process-wide [isBusy] flag and its [buildLock] mutex: the admission
      block at the head of [BuildImage], [resetBusy], and the goroutine
      started by [resetBusyAfter].  Every statement of those operations is
      one atomic step of one goroutine; a schedule picks the goroutine that
      moves next.
    - [Vddk] is a sequential model of the three HTTP handlers and of
      [BuildAndPushImage], written in a small state monad with early return
      and a defer stack.  The outcomes of the calls that leave the file
      (gin, os, io, client-go) come from a per-request oracle.  A request
      is served in one piece.
    - [Program] is the interleaving model of the goroutines the package
      itself creates: requests followed from line 62 to their return, and
      the release goroutines that admitted requests start when they
      return.  [Lease] takes any mix of the three operations as given;
      [Program] has only what the code can produce. *)

From Stdlib Require Import ZArith List String Bool Lia Ascii.
From Stdlib Require Import Strings.Byte.
From stdpp Require Import gmap strings list fin_maps.

Local Open Scope Z_scope.

(** HTTP status codes of net/http used by the handlers. *)
Definition StatusOK : Z := 200.
Definition StatusBadRequest : Z := 400.
Definition StatusNotFound : Z := 404.
Definition StatusInternalServerError : Z := 500.
Definition StatusServiceUnavailable : Z := 503.

Definition busyMessage : string :=
  "Server is busy processing another build. Please try again later.".

(* ===================================================================== *)
(** * Interleaving model of the busy lease                                *)
(* ===================================================================== *)

Module Lease.

(** Program points.  The comments give the line of vddk.go that the
    goroutine executes next. *)
Inductive pc : Type :=
| AcqLock                               (* 62: buildLock.Lock() *)
| AcqCheck                              (* 63: if isBusy *)
| AcqBusyUnlock                         (* 64: buildLock.Unlock() *)
| AcqRespond                            (* 65: JSONError(ctx, 503, ...) *)
| AcqRejected (code : Z) (msg : string) (* 66: return *)
| AcqSet                                (* 68: isBusy = true *)
| AcqUnlock                             (* 69: buildLock.Unlock() *)
| AcqAdmitted                           (* 70: past the check *)
| RelSleep                              (* 267: time.Sleep(timeout) *)
| RelLock                               (* 259: buildLock.Lock() *)
| RelClear                              (* 260: isBusy = false *)
| RelUnlock                             (* 261: buildLock.Unlock() *)
| RelDone.                              (* 262: return *)

(** [buildLock] is a sync.Mutex.  Go does not tie a locked mutex to a
    goroutine; the holder recorded here is only used to state mutual
    exclusion, [Unlock] frees the mutex whoever calls it and is a fatal
    error on a mutex that is not locked. *)
Record state : Type := mkState {
  isBusy : bool;
  buildLock : option nat;
  pool : list pc
}.

Inductive outcome : Type :=
| Next (s : state)
| Blocked
| Halted
| Fatal
| NoThread.

Definition goto (t : nat) (p : pc) (s : state) : state :=
  mkState (isBusy s) (buildLock s) (<[t:=p]> (pool s)).

Definition Lock (t : nat) (p : pc) (s : state) : outcome :=
  match buildLock s with
  | None => Next (mkState (isBusy s) (Some t) (<[t:=p]> (pool s)))
  | Some _ => Blocked
  end.

Definition Unlock (t : nat) (p : pc) (s : state) : outcome :=
  match buildLock s with
  | None => Fatal
  | Some _ => Next (mkState (isBusy s) None (<[t:=p]> (pool s)))
  end.

Definition store (t : nat) (b : bool) (p : pc) (s : state) : state :=
  mkState b (buildLock s) (<[t:=p]> (pool s)).

Definition step (t : nat) (s : state) : outcome :=
  match pool s !! t with
  | None => NoThread
  | Some AcqLock => Lock t AcqCheck s
  | Some AcqCheck => Next (goto t (if isBusy s then AcqBusyUnlock else AcqSet) s)
  | Some AcqBusyUnlock => Unlock t AcqRespond s
  | Some AcqRespond => Next (goto t (AcqRejected StatusServiceUnavailable busyMessage) s)
  | Some (AcqRejected _ _) => Halted
  | Some AcqSet => Next (store t true AcqUnlock s)
  | Some AcqUnlock => Unlock t AcqAdmitted s
  | Some AcqAdmitted => Halted
  | Some RelSleep => Next (goto t RelLock s)
  | Some RelLock => Lock t RelClear s
  | Some RelClear => Next (store t false RelUnlock s)
  | Some RelUnlock => Unlock t RelDone s
  | Some RelDone => Halted
  end.

(** A schedule names the goroutine that is offered the processor at each
    turn; a goroutine that cannot move (blocked on the mutex, finished, or
    absent) leaves the state as it is. *)
Definition turn (s : state) (t : nat) : state :=
  match step t s with
  | Next s' => s'
  | _ => s
  end.

Definition run (sched : list nat) (s : state) : state := fold_left turn sched s.

Inductive reachable (s0 : state) : state -> Prop :=
| reach_refl : reachable s0 s0
| reach_step s t s' : reachable s0 s -> step t s = Next s' -> reachable s0 s'.

(** Goroutines as they are created: an admission attempt entering line 62,
    an explicit call of [resetBusy], a goroutine of [resetBusyAfter]. *)
Definition fresh (p : pc) : bool :=
  match p with
  | AcqLock | RelLock | RelSleep => true
  | _ => false
  end.

Definition init (busy : bool) (threads : list pc) : state :=
  mkState busy None threads.

(** Program points inside a critical section. *)
Definition holds (p : pc) : bool :=
  match p with
  | AcqCheck | AcqBusyUnlock | AcqSet | AcqUnlock | RelClear | RelUnlock => true
  | _ => false
  end.

(** The attempt has read [isBusy = false] at line 63. *)
Definition won (p : pc) : bool :=
  match p with
  | AcqSet | AcqUnlock | AcqAdmitted => true
  | _ => false
  end.

(** The release has executed line 260. *)
Definition cleared (p : pc) : bool :=
  match p with
  | RelUnlock | RelDone => true
  | _ => false
  end.

Definition final (p : pc) : bool :=
  match p with
  | AcqRejected _ _ | AcqAdmitted | RelDone => true
  | _ => false
  end.

Definition is_rejected (p : pc) : bool :=
  match p with
  | AcqRejected _ _ => true
  | _ => false
  end.

Definition is_admitted (p : pc) : bool :=
  match p with
  | AcqAdmitted => true
  | _ => false
  end.

(** The attempt has executed line 68. *)
Definition has_set (p : pc) : bool :=
  match p with
  | AcqUnlock | AcqAdmitted => true
  | _ => false
  end.

(** The attempt has read [isBusy = true] at line 63. *)
Definition lost (p : pc) : bool :=
  match p with
  | AcqBusyUnlock | AcqRespond | AcqRejected _ _ => true
  | _ => false
  end.

Definition at_set (p : pc) : bool :=
  match p with
  | AcqSet => true
  | _ => false
  end.

(** Admission attempt or release: a goroutine never changes its kind. *)
Definition is_acq (p : pc) : bool :=
  match p with
  | RelSleep | RelLock | RelClear | RelUnlock | RelDone => false
  | _ => true
  end.

Definition count (f : pc -> bool) (l : list pc) : nat :=
  length (List.filter f l).

(** Statements left before the goroutine returns. *)
Definition weight (p : pc) : nat :=
  match p with
  | AcqLock => 4
  | AcqCheck => 3
  | AcqBusyUnlock => 2
  | AcqRespond => 1
  | AcqRejected _ _ => 0
  | AcqSet => 2
  | AcqUnlock => 1
  | AcqAdmitted => 0
  | RelSleep => 4
  | RelLock => 3
  | RelClear => 2
  | RelUnlock => 1
  | RelDone => 0
  end%nat.

Definition total (l : list pc) : nat := list_sum (map weight l).

(** The invariant of every state reachable from [init busy0 threads]. *)
Record inv (busy0 : bool) (s : state) : Prop := mkInv {
  inv_holder : forall t, buildLock s = Some t ->
      exists p, pool s !! t = Some p /\ holds p = true;
  inv_excl : forall t p, pool s !! t = Some p -> holds p = true -> buildLock s = Some t;
  inv_at_set : forall t, pool s !! t = Some AcqSet -> isBusy s = false;
  inv_rejected : forall t c m, pool s !! t = Some (AcqRejected c m) ->
      c = StatusServiceUnavailable /\ m = busyMessage;
  inv_busy : isBusy s = true -> busy0 = true \/ (0 < count has_set (pool s))%nat;
  inv_lost : (0 < count lost (pool s))%nat ->
      busy0 = true \/ (0 < count has_set (pool s))%nat;
  inv_count : (count has_set (pool s) + Nat.b2n (negb (isBusy s))
               <= count cleared (pool s) + Nat.b2n (negb busy0))%nat
}.

End Lease.

(* ===================================================================== *)
(** * Sequential model of the handlers                                    *)
(* ===================================================================== *)

Module Vddk.

(** ** Package constants and variables (vddk.go:24-38) *)

(** time.Duration counts nanoseconds. *)
Definition Second : Z := 1000000000.

Definition defaultNamespaceFile : string :=
  "/var/run/secrets/kubernetes.io/serviceaccount/namespace".
Definition uploadDirPerm : Z := 384. (* 0600 *)
Definition buildConfigName : string := "vddk".
Definition registryImageTag : string := "vddk:latest".
Definition vddkTarFileName : string := "vddk.tar.gz".
Definition uploadDir : string := "/tmp/uploads".
Definition waitForDownload : Z := 15 * Second.

(** filepath.Join on two clean, non-empty elements. *)
Definition filepath_Join (dir name : string) : string := dir +:+ "/" +:+ name.

(** ** The process and its surroundings *)

(** [files] holds the regular files by path, [dirs] the directories that
    exist, [sleepers] the wake-up instants of the goroutines that
    [resetBusyAfter] has started and that are still in time.Sleep,
    [builds] the builds the API server has instantiated, as
    (namespace, build config name).  A path is looked up in [files]
    first and in [dirs] next; whether a call that changes the file system
    fails is for the oracles of [Env] to say. *)
Record World : Type := mkWorld {
  isBusy : bool;
  buildLock : bool;
  now : Z;
  sleepers : list Z;
  files : gmap string (list byte);
  dirs : gset string;
  builds : list (string * string)
}.

Definition with_isBusy (b : bool) (w : World) : World :=
  mkWorld b (buildLock w) (now w) (sleepers w) (files w) (dirs w) (builds w).
Definition with_buildLock (l : bool) (w : World) : World :=
  mkWorld (isBusy w) l (now w) (sleepers w) (files w) (dirs w) (builds w).
Definition with_now (t : Z) (w : World) : World :=
  mkWorld (isBusy w) (buildLock w) t (sleepers w) (files w) (dirs w) (builds w).
Definition with_sleepers (l : list Z) (w : World) : World :=
  mkWorld (isBusy w) (buildLock w) (now w) l (files w) (dirs w) (builds w).
Definition with_files (f : gmap string (list byte)) (w : World) : World :=
  mkWorld (isBusy w) (buildLock w) (now w) (sleepers w) f (dirs w) (builds w).
Definition with_dirs (d : gset string) (w : World) : World :=
  mkWorld (isBusy w) (buildLock w) (now w) (sleepers w) (files w) d (builds w).
Definition with_builds (b : list (string * string)) (w : World) : World :=
  mkWorld (isBusy w) (buildLock w) (now w) (sleepers w) (files w) (dirs w) b.

(** gin.H is map[string]any; the values the handlers store are strings and
    one nested map of strings. *)
Inductive JValue : Type :=
| JStr (s : string)
| JObj (m : gmap string string).

Inductive Body : Type :=
| JSONBody (h : gmap string JValue)
| FileBody (content : list byte)
| TextBody (text : string).

Record Response : Type := mkResponse { code : Z; body : Body }.

(** The response side of a gin.Context: the status set by ctx.Status, the
    error handed to base.SetForkliftError, the headers set by ctx.Header,
    and every response written by ctx.JSON or ctx.File, oldest first. *)
Record Ctx : Type := mkCtx {
  status : option Z;
  forkliftError : option (option string);
  headers : list (string * string);
  sent : list Response
}.

Definition emptyCtx : Ctx := mkCtx None None [] [].

(** What the handler does to the outside, in program order. *)
Inductive event : Type :=
| EvPrepare
| EvLock
| EvUnlock
| EvLoadBusy (b : bool)
| EvStoreBusy (b : bool)
| EvGo (timeout : Z)
| EvFormFile (field : string)
| EvOpen
| EvClose (valid : bool)
| EvMkdirAll (path : string) (perm : Z)
| EvCreate (path : string)
| EvCopy (written : nat) (err : option string)
| EvReadFile (path : string)
| EvStat (path : string)
| EvServeFile (path : string)
| EvInClusterConfig
| EvNewBuildClient
| EvNewImageClient
| EvInstantiate (namespace name : string)
| EvGetImageStreamTag (namespace tag : string)
| EvWrite (code : Z).

(** Calls registered by [defer], newest first. *)
Inductive deferred : Type :=
| DeferResetBusyAfter (timeout : Z)
| DeferCloseSrc
| DeferCloseDst (dst : option string).

Record St : Type := mkSt {
  world : World;
  ctx : Ctx;
  trace : list event;
  defers : list deferred
}.

(** The uploaded part, as ctx.FormFile hands it over. *)
Record FileHeader : Type := mkFileHeader {
  fh_open_err : option string;
  fh_content : list byte
}.

Inductive GetResult : Type :=
| Found (dockerImageReference : string)
| NotFound
| GetFailed (err : string).

(** The outcome of every call that leaves vddk.go during one request.
    [h.Prepare] and [base.SetForkliftError] belong to other files of the
    repository; [prepare_status] and [prepare_err] are what [Prepare]
    returns.  An error is its Error() text; [None] is nil.
    [copy_err = Some (n, e)]: io.Copy fails with [e] after [n] bytes. *)
Record Env : Type := mkEnv {
  prepare_status : Z;
  prepare_err : option string;
  form_file : option FileHeader;
  mkdir_err : option string;
  create_err : option string;
  copy_err : option (nat * string);
  stat_err : option string;
  readfile_err : option string;
  cluster_config_err : option string;
  build_client_err : option string;
  image_client_err : option string;
  instantiate_err : option string;
  image_stream_tag : GetResult
}.

(** ** The monad: state, early return, and a goroutine that cannot go on *)

Inductive flow (R A : Type) : Type :=
| Cont (a : A)
| Ret (r : R)
| Stuck.
Arguments Cont {R A} a.
Arguments Ret {R A} r.
Arguments Stuck {R A}.

Definition M (R A : Type) : Type := St -> flow R A * St.

Definition ret {R A} (a : A) : M R A := fun s => (Cont a, s).

Definition bind {R A B} (m : M R A) (k : A -> M R B) : M R B :=
  fun s =>
    match m s with
    | (Cont a, s') => k a s'
    | (Ret r, s') => (Ret r, s')
    | (Stuck, s') => (Stuck, s')
    end.

(** [return r] of Go. *)
Definition Return {R A} (r : R) : M R A := fun s => (Ret r, s).

(** A call of a function of the file that has no defers of its own. *)
Definition call {R R'} (m : M R R) : M R' R :=
  fun s =>
    match m s with
    | (Cont r, s') | (Ret r, s') => (Cont r, s')
    | (Stuck, s') => (Stuck, s')
    end.

Declare Scope go_scope.
Delimit Scope go_scope with go.
Notation "x <- m ;; k" := (bind m (fun x => k))
  (at level 100, m at next level, right associativity) : go_scope.
Notation "m ;; k" := (bind m (fun _ => k))
  (at level 100, right associativity) : go_scope.
Local Open Scope go_scope.

Definition log {R} (e : event) : M R unit :=
  fun s => (Cont tt, mkSt (world s) (ctx s) (trace s ++ [e]) (defers s)).

Definition getWorld {R} : M R World := fun s => (Cont (world s), s).

Definition setWorld {R} (f : World -> World) : M R unit :=
  fun s => (Cont tt, mkSt (f (world s)) (ctx s) (trace s) (defers s)).

Definition setCtx {R} (f : Ctx -> Ctx) : M R unit :=
  fun s => (Cont tt, mkSt (world s) (f (ctx s)) (trace s) (defers s)).

Definition defer {R} (d : deferred) : M R unit :=
  fun s => (Cont tt, mkSt (world s) (ctx s) (trace s) (d :: defers s)).

Definition stuck {R A} : M R A := fun s => (Stuck, s).

Definition when {R} (c : bool) (m : M R unit) : M R unit :=
  if c then m else ret tt.

(** ** sync, time *)

(** A goroutine that calls Lock on a locked mutex waits; in a run of one
    goroutine nobody will unlock, so it waits for ever.  Unlock of an
    unlocked mutex is a fatal error of the runtime. *)
Definition Lock {R} : M R unit :=
  w <- getWorld ;;
  if buildLock w then stuck
  else setWorld (with_buildLock true) ;; log EvLock.

Definition Unlock {R} : M R unit :=
  w <- getWorld ;;
  if buildLock w then setWorld (with_buildLock false) ;; log EvUnlock
  else stuck.

Definition loadBusy {R} : M R bool :=
  w <- getWorld ;;
  log (EvLoadBusy (isBusy w)) ;;
  ret (isBusy w).

Definition storeBusy {R} (b : bool) : M R unit :=
  setWorld (with_isBusy b) ;; log (EvStoreBusy b).

(** [go func() { time.Sleep(timeout); resetBusy() }()]: the new goroutine
    is asleep until [now + timeout] at the earliest. *)
Definition go_sleep_resetBusy {R} (timeout : Z) : M R unit :=
  w <- getWorld ;;
  setWorld (with_sleepers (sleepers w ++ [now w + timeout])) ;;
  log (EvGo timeout).

(** ** gin *)

(** Every write of a handler is recorded, in order.  On the wire they are
    one HTTP response: see [wireStatus]. *)
Definition send {R} (r : Response) : M R unit :=
  setCtx (fun c => mkCtx (status c) (forkliftError c) (headers c) (sent c ++ [r])) ;;
  log (EvWrite (code r)).

Definition ctx_JSON {R} (code : Z) (obj : gmap string JValue) : M R unit :=
  send (mkResponse code (JSONBody obj)).

Definition ctx_Status {R} (code : Z) : M R unit :=
  setCtx (fun c => mkCtx (Some code) (forkliftError c) (headers c) (sent c)).

Definition ctx_Header {R} (key value : string) : M R unit :=
  setCtx (fun c => mkCtx (status c) (forkliftError c) (headers c ++ [(key, value)]) (sent c)).

Definition ctx_FormFile {R} (env : Env) (name : string) : M R (option FileHeader) :=
  log (EvFormFile name) ;; ret (form_file env).

(** ctx.File is http.ServeFile, here for a GET without Range or
    conditional headers and without a query, on a path that can be
    opened if it exists: a regular file is answered 200 with its bytes; a
    directory, the request path not ending in a slash, is redirected with
    301 to the last element of the request path and a slash; a path that
    does not exist is answered 404. *)
Definition StatusMovedPermanently : Z := 301.

Definition notFoundText : string :=
  "404 page not found" +:+ String "010"%char EmptyString.

Definition ctx_File {R} (path : string) : M R unit :=
  w <- getWorld ;;
  log (EvServeFile path) ;;
  match files w !! path with
  | Some content => send (mkResponse StatusOK (FileBody content))
  | None =>
      if bool_decide (path ∈ dirs w) then
        ctx_Header "Location" "download-tar/" ;;
        send (mkResponse StatusMovedPermanently (TextBody ""))
      else send (mkResponse StatusNotFound (TextBody notFoundText))
  end.

(** The two calls of [Handler] and of package base that the handlers start
    with; only their results and what they leave in the context appear. *)
Definition Prepare {R} (env : Env) : M R (Z * option string) :=
  log EvPrepare ;; ret (prepare_status env, prepare_err env).

Definition SetForkliftError {R} (err : option string) : M R unit :=
  setCtx (fun c => mkCtx (status c) (Some err) (headers c) (sent c)).

(** ** mime/multipart, os, io *)

Definition ErrInvalid : string := "invalid argument".

Definition fh_Open {R} (fh : FileHeader) : M R (list byte * option string) :=
  log EvOpen ;;
  match fh_open_err fh with
  | Some e => ret ([], Some e)
  | None => ret (fh_content fh, None)
  end.

Definition os_MkdirAll {R} (env : Env) (path : string) (perm : Z) : M R (option string) :=
  log (EvMkdirAll path perm) ;;
  match mkdir_err env with
  | Some e => ret (Some e)
  | None => setWorld (fun w => with_dirs ({[path]} ∪ dirs w) w) ;; ret None
  end.

(** An open *os.File is the path it was created at; [None] is the nil
    pointer.  os.Create truncates. *)
Definition os_Create {R} (env : Env) (path : string) : M R (option string * option string) :=
  log (EvCreate path) ;;
  match create_err env with
  | Some e => ret (None, Some e)
  | None => setWorld (fun w => with_files (<[path:=[]]> (files w)) w) ;; ret (Some path, None)
  end.

(** Writing [data] at offset 0 of a file holding [old]. *)
Definition overwrite (data old : list byte) : list byte :=
  data ++ drop (length data) old.

Definition write_file (path : string) (data : list byte) (w : World) : World :=
  match files w !! path with
  | Some old => with_files (<[path:=overwrite data old]> (files w)) w
  | None => w
  end.

(** io.Copy(dst, src).  Every method of a nil *os.File returns
    os.ErrInvalid, so copying into one fails before a byte moves. *)
Definition io_Copy {R} (env : Env) (dst : option string) (src : list byte)
  : M R (nat * option string) :=
  match dst with
  | None => log (EvCopy 0 (Some ErrInvalid)) ;; ret (0%nat, Some ErrInvalid)
  | Some path =>
      match copy_err env with
      | Some (n, e) =>
          setWorld (write_file path (take n src)) ;;
          log (EvCopy (length (take n src)) (Some e)) ;;
          ret (length (take n src), Some e)
      | None =>
          setWorld (write_file path src) ;;
          log (EvCopy (length src) None) ;;
          ret (length src, None)
      end
  end.

Definition os_ReadFile {R} (env : Env) (path : string) : M R (list byte * option string) :=
  w <- getWorld ;;
  log (EvReadFile path) ;;
  match readfile_err env with
  | Some e => ret ([], Some e)
  | None =>
      match files w !! path with
      | Some content => ret (content, None)
      | None =>
          if bool_decide (path ∈ dirs w)
          then ret ([], Some ("read " +:+ path +:+ ": is a directory"))
          else ret ([], Some ("open " +:+ path +:+ ": no such file or directory"))
      end
  end.

Inductive StatError : Type :=
| ErrNotExist (text : string)
| ErrStat (text : string).

Definition os_IsNotExist (e : StatError) : bool :=
  match e with ErrNotExist _ => true | ErrStat _ => false end.

Definition Error (e : StatError) : string :=
  match e with ErrNotExist t | ErrStat t => t end.

Definition os_Stat {R} (env : Env) (path : string) : M R (option StatError) :=
  w <- getWorld ;;
  log (EvStat path) ;;
  match stat_err env with
  | Some e => ret (Some (ErrStat e))
  | None =>
      match files w !! path with
      | Some _ => ret None
      | None =>
          if bool_decide (path ∈ dirs w) then ret None
          else ret (Some (ErrNotExist ("stat " +:+ path +:+ ": no such file or directory")))
      end
  end.

(** strings.TrimSpace removes the white-space runes (unicode.IsSpace) at
    both ends of a string of UTF-8 bytes.  [spaceRunes] lists their
    encodings: the six ASCII ones, U+0085, U+00A0, U+1680, U+2000 to
    U+200A, U+2028, U+2029, U+202F, U+205F and U+3000.  The leading rune
    is one of them exactly when the bytes begin with its encoding, and
    utf8.DecodeLastRuneInString finds one exactly when they end with it. *)
Definition spaceRunes : list (list ascii) :=
  [ ["009"]; ["010"]; ["011"]; ["012"]; ["013"]; [" "];
    ["194"; "133"]; ["194"; "160"];
    ["225"; "154"; "128"];
    ["226"; "128"; "128"]; ["226"; "128"; "129"]; ["226"; "128"; "130"];
    ["226"; "128"; "131"]; ["226"; "128"; "132"]; ["226"; "128"; "133"];
    ["226"; "128"; "134"]; ["226"; "128"; "135"]; ["226"; "128"; "136"];
    ["226"; "128"; "137"]; ["226"; "128"; "138"];
    ["226"; "128"; "168"]; ["226"; "128"; "169"]; ["226"; "128"; "175"];
    ["226"; "129"; "159"];
    ["227"; "128"; "128"] ]%char.

Fixpoint dropPrefix (w l : list ascii) : option (list ascii) :=
  match w, l with
  | [], _ => Some l
  | a :: w', b :: l' => if Ascii.eqb a b then dropPrefix w' l' else None
  | _ :: _, [] => None
  end.

(** The bytes after a leading rune of [ws], if there is one. *)
Fixpoint dropRune (ws : list (list ascii)) (l : list ascii) : option (list ascii) :=
  match ws with
  | [] => None
  | w :: ws' =>
      match dropPrefix w l with
      | Some r => Some r
      | None => dropRune ws' l
      end
  end.

Fixpoint strip (ws : list (list ascii)) (fuel : nat) (l : list ascii) : list ascii :=
  match fuel with
  | O => l
  | S fuel' =>
      match dropRune ws l with
      | Some r => strip ws fuel' r
      | None => l
      end
  end.

Definition trimLeft (l : list ascii) : list ascii :=
  strip spaceRunes (length l) l.

Definition trimRight (l : list ascii) : list ascii :=
  rev (strip (map (@rev ascii) spaceRunes) (length l) (rev l)).

Definition TrimSpace (s : string) : string :=
  string_of_list_ascii (trimRight (trimLeft (list_ascii_of_string s))).

(** ** client-go *)

Definition rest_InClusterConfig {R} (env : Env) : M R (option string) :=
  log EvInClusterConfig ;; ret (cluster_config_err env).

Definition buildclientset_NewForConfig {R} (env : Env) : M R (option string) :=
  log EvNewBuildClient ;; ret (build_client_err env).

Definition imagev1client_NewForConfig {R} (env : Env) : M R (option string) :=
  log EvNewImageClient ;; ret (image_client_err env).

Definition Instantiate {R} (env : Env) (namespace name : string) : M R (option string) :=
  log (EvInstantiate namespace name) ;;
  match instantiate_err env with
  | Some e => ret (Some e)
  | None => setWorld (fun w => with_builds (builds w ++ [(namespace, name)]) w) ;; ret None
  end.

Definition ImageStreamTags_Get {R} (env : Env) (namespace tag : string) : M R GetResult :=
  log (EvGetImageStreamTag namespace tag) ;; ret (image_stream_tag env).

(** ** The functions of vddk.go *)

(** [if err != nil { ... }] *)
Definition ifErr {R} (err : option string) (k : string -> M R unit) : M R unit :=
  match err with
  | Some e => k e
  | None => ret tt
  end.

(** vddk.go:244 *)
Definition JSONError {R} (code : Z) (msg : string) : M R unit :=
  ctx_JSON code (list_to_map [("status", JStr "error"); ("message", JStr msg)]).

(** vddk.go:249 *)
Definition JSONSuccess {R} (msg : string) (data : option (gmap string string)) : M R unit :=
  let resp : gmap string JValue :=
    list_to_map [("status", JStr "success"); ("message", JStr msg)] in
  let resp :=
    match data with
    | Some d => <["data":=JObj d]> resp
    | None => resp
    end in
  ctx_JSON StatusOK resp.

(** vddk.go:258 *)
Definition resetBusy : M unit unit :=
  Lock ;;
  storeBusy false ;;
  Unlock.

(** vddk.go:265 *)
Definition resetBusyAfter (timeout : Z) : M unit unit :=
  go_sleep_resetBusy timeout.

(** vddk.go:216 *)
Definition currentNamespace (env : Env) : M (string * option string) (string * option string) :=
  r <- os_ReadFile env defaultNamespaceFile ;;
  let '(byteContent, err) := r in
  match err with
  | Some e => Return (""%string, Some ("could not read byteContent file: " +:+ e))
  | None =>
      let namespace := TrimSpace (string_of_list_byte byteContent) in
      if String.eqb namespace "" then Return (""%string, Some "file was empty"%string)
      else Return (namespace, None)
  end.

(** vddk.go:230 *)
Definition imageReference (env : Env) (namespace registryImageTag : string)
  : M (string * bool * option string) (string * bool * option string) :=
  r <- ImageStreamTags_Get env namespace registryImageTag ;;
  match r with
  | NotFound => Return (""%string, false, None)
  | GetFailed e =>
      Return (""%string, false,
              Some ("error: " +:+ e +:+ ". could not get ImageStreamTag: " +:+ registryImageTag))
  | Found ref => Return (ref, true, None)
  end.

(** vddk.go:182 *)
Definition BuildAndPushImage (env : Env) : M (option string) (option string) :=
  r <- call (currentNamespace env) ;;
  let '(namespace, err) := r in
  match err with
  | Some e => Return (Some ("failed to get the pod namespace: " +:+ e))
  | None =>
      err <- rest_InClusterConfig env ;;
      match err with
      | Some e => Return (Some ("load kube config: " +:+ e))
      | None =>
          err <- buildclientset_NewForConfig env ;;
          match err with
          | Some e => Return (Some ("create build client: " +:+ e))
          | None =>
              err <- Instantiate env namespace buildConfigName ;;
              match err with
              | Some e => Return (Some ("start build: " +:+ e))
              | None => Return None
              end
          end
      end
  end.

(** vddk.go:54 *)
Definition BuildImage (env : Env) : M unit unit :=
  r <- Prepare env ;;
  let '(status, err) := r in
  when (negb (status =? StatusOK))
    (ctx_Status status ;; SetForkliftError err ;; Return tt) ;;

  Lock ;;
  busy <- loadBusy ;;
  when busy
    (Unlock ;;
     JSONError StatusServiceUnavailable busyMessage ;;
     Return tt) ;;
  storeBusy true ;;
  Unlock ;;
  defer (DeferResetBusyAfter waitForDownload) ;;

  file <- ctx_FormFile env "file" ;;
  match file with
  | None => JSONError StatusBadRequest "No file provided" ;; Return tt
  | Some file =>
      r <- fh_Open file ;;
      let '(src, err) := r in
      ifErr err (fun e =>
        JSONError StatusInternalServerError ("Could not process uploaded file: " +:+ e) ;;
        Return tt) ;;
      defer DeferCloseSrc ;;

      err <- os_MkdirAll env uploadDir uploadDirPerm ;;
      ifErr err (fun e =>
        JSONError StatusInternalServerError ("Could not prepare upload directory: " +:+ e) ;;
        Return tt) ;;

      let filePath := filepath_Join uploadDir vddkTarFileName in
      r <- os_Create env filePath ;;
      let '(dst, err) := r in
      ifErr err (fun e =>
        JSONError StatusInternalServerError
          ("error: " +:+ e +:+ ", Could not save file on disk: " +:+ filePath +:+ ". ")) ;;
      defer (DeferCloseDst dst) ;;

      r <- io_Copy env dst src ;;
      ifErr (snd r) (fun e =>
        JSONError StatusInternalServerError ("error copy to the local file: " +:+ e +:+ ". ") ;;
        Return tt) ;;

      err <- call (BuildAndPushImage env) ;;
      ifErr err (fun e =>
        JSONError StatusInternalServerError e ;;
        Return tt) ;;

      JSONSuccess "VDDK build started; check your registry in OpenShift" None
  end.

(** vddk.go:114 *)
Definition ImageUrl (env : Env) : M unit unit :=
  r <- Prepare env ;;
  let '(status, err) := r in
  when (negb (status =? StatusOK))
    (ctx_Status status ;; SetForkliftError err ;; Return tt) ;;

  r <- call (currentNamespace env) ;;
  let '(namespace, err) := r in
  ifErr err (fun e =>
    JSONError StatusInternalServerError ("Could not determine namespace: " +:+ e) ;;
    Return tt) ;;

  err <- rest_InClusterConfig env ;;
  ifErr err (fun e =>
    JSONError StatusInternalServerError ("Could not load cluster config: " +:+ e) ;;
    Return tt) ;;

  err <- imagev1client_NewForConfig env ;;
  ifErr err (fun e =>
    JSONError StatusInternalServerError ("Could not create image client: " +:+ e) ;;
    Return tt) ;;

  r <- call (imageReference env namespace registryImageTag) ;;
  let '(url, exists_, err) := r in
  ifErr err (fun e =>
    JSONError StatusInternalServerError ("Error checking image reference: " +:+ e) ;;
    Return tt) ;;

  when (negb exists_)
    (JSONError StatusNotFound ("Image: " +:+ registryImageTag +:+ " not found") ;;
     Return tt) ;;

  JSONSuccess ("Image: " +:+ registryImageTag +:+ " exists")
              (Some (list_to_map [("imageReference"%string, url)])).

(** The %q verb on a name without characters to escape. *)
Definition quote (s : string) : string :=
  String "034"%char s +:+ String "034"%char EmptyString.

(** vddk.go:155 *)
Definition DownloadVddkTar (env : Env) : M unit unit :=
  r <- Prepare env ;;
  let '(status, err) := r in
  when (negb (status =? StatusOK))
    (ctx_Status status ;; SetForkliftError err ;; Return tt) ;;

  let filePath := filepath_Join uploadDir vddkTarFileName in

  err <- os_Stat env filePath ;;
  match err with
  | Some e =>
      (if os_IsNotExist e then
         JSONError StatusNotFound "VDDK tar not found"
       else
         JSONError StatusInternalServerError ("Failed to stat file: " +:+ Error e)) ;;
      Return tt
  | None =>
      ctx_Header "Content-Disposition" ("attachment; filename=" +:+ quote vddkTarFileName) ;;
      ctx_Header "Content-Type" "application/octet-stream" ;;
      ctx_File filePath
  end.

(** ** Running a handler and the goroutines it leaves behind *)

Definition run_deferred (d : deferred) : M unit unit :=
  match d with
  | DeferResetBusyAfter timeout => resetBusyAfter timeout
  | DeferCloseSrc => log (EvClose true)
  | DeferCloseDst dst => log (EvClose (bool_decide (is_Some dst)))
  end.

Fixpoint run_defers (ds : list deferred) : M unit unit :=
  match ds with
  | [] => ret tt
  | d :: ds' => call (run_deferred d) ;; run_defers ds'
  end.

(** One request served from entry to return: the body, then the deferred
    calls, last registered first.  [None]: the goroutine never returns. *)
Definition serve (handler : M unit unit) (w : World) : option St :=
  match handler (mkSt w emptyCtx [] []) with
  | (Stuck, _) => None
  | (_, s) =>
      match run_defers (defers s) (mkSt (world s) (ctx s) (trace s) []) with
      | (Stuck, _) => None
      | (_, s') => Some s'
      end
  end.

(** A direct call of [resetBusy].  No code of the package makes one (the
    only caller is the goroutine of [resetBusyAfter], line 268); it is
    here to state what [resetBusy] does on its own. *)
Definition callResetBusy (w : World) : option World :=
  match resetBusy (mkSt w emptyCtx [] []) with
  | (Stuck, _) => None
  | (_, s) => Some (world s)
  end.

(** The [i]-th sleeping goroutine returns from time.Sleep, which is
    possible once its wake-up instant has come, and calls [resetBusy]. *)
Definition wake (i : nat) (w : World) : option World :=
  match sleepers w !! i with
  | Some due =>
      if due <=? now w then callResetBusy (with_sleepers (delete i (sleepers w)) w)
      else None
  | None => None
  end.

Definition elapse (d : Z) (w : World) : option World :=
  if d <? 0 then None else Some (with_now (now w + d) w).

(** Runs of the sequential model.  A request is one action: it is served
    from entry to return with nothing in between, so a run says nothing
    about what other goroutines see while a request is in progress; that
    is the subject of [Program].  [DoResetBusy] is the direct call above:
    runs that contain it cover more than the package can do. *)
Inductive action : Type :=
| DoBuildImage (env : Env)
| DoImageUrl (env : Env)
| DoDownloadVddkTar (env : Env)
| DoResetBusy
| DoWake (i : nat)
| DoElapse (d : Z).

Definition perform (a : action) (w : World) : option World :=
  match a with
  | DoBuildImage env => world <$> serve (BuildImage env) w
  | DoImageUrl env => world <$> serve (ImageUrl env) w
  | DoDownloadVddkTar env => world <$> serve (DownloadVddkTar env) w
  | DoResetBusy => callResetBusy w
  | DoWake i => wake i w
  | DoElapse d => elapse d w
  end.

Fixpoint execute (acts : list action) (w : World) : option World :=
  match acts with
  | [] => Some w
  | a :: acts' =>
      match perform a w with
      | Some w' => execute acts' w'
      | None => None
      end
  end.

Fixpoint callResetBusyTimes (n : nat) (w : World) : option World :=
  match n with
  | O => Some w
  | S n' =>
      match callResetBusy w with
      | Some w' => callResetBusyTimes n' w'
      | None => None
      end
  end.

(** ** Vocabulary of the statements *)

(** The two envelopes as [JSONError] and [JSONSuccess] build them. *)
Definition errorEnvelope (code : Z) (msg : string) : Response :=
  mkResponse code (JSONBody (list_to_map [("status", JStr "error"); ("message", JStr msg)])).

Definition successEnvelope (msg : string) : Response :=
  mkResponse StatusOK
    (JSONBody (list_to_map [("status", JStr "success"); ("message", JStr msg)])).

(** Events on the lease: the mutex, the flag, and the release goroutine. *)
Definition lease_event (e : event) : bool :=
  match e with
  | EvLock | EvUnlock | EvLoadBusy _ | EvStoreBusy _ | EvGo _ => true
  | _ => false
  end.

Definition is_go (e : event) : bool :=
  match e with
  | EvGo _ => true
  | _ => false
  end.

(** Events that change the file system. *)
Definition write_event (e : event) : bool :=
  match e with
  | EvMkdirAll _ _ | EvCreate _ | EvCopy _ _ => true
  | _ => false
  end.

(** Events on the upload or on the file system. *)
Definition file_event (e : event) : bool :=
  match e with
  | EvOpen | EvClose _ | EvMkdirAll _ _ | EvCreate _ | EvCopy _ _
  | EvReadFile _ | EvStat _ | EvServeFile _ => true
  | _ => false
  end.

(** Events of [BuildAndPushImage]; its first statement reads the namespace
    file, so a trace without them is a run that never entered it. *)
Definition trigger_event (e : event) : bool :=
  match e with
  | EvReadFile _ | EvInClusterConfig | EvNewBuildClient | EvInstantiate _ _ => true
  | _ => false
  end.

Definition none_of (f : event -> bool) (tr : list event) : bool :=
  forallb (fun e => negb (f e)) tr.

Definition is_copy_failure (e : event) : option string :=
  match e with
  | EvCopy _ (Some err) => Some err
  | _ => None
  end.

(** The error of the failed io.Copy of a run, if there was one. *)
Definition copy_failure (tr : list event) : option string :=
  list_find (fun e => is_Some (is_copy_failure e)) tr ≫= fun r => is_copy_failure r.2.

Definition stagedPath : string := filepath_Join uploadDir vddkTarFileName.

(** What [BuildAndPushImage] returns when it is called in world [w]. *)
Definition triggerOutcome (env : Env) (w : World) : option string :=
  match call (R':=unit) (BuildAndPushImage env) (mkSt w emptyCtx [] []) with
  | (Cont r, _) => r
  | _ => None
  end.

Definition startedMessage : string :=
  "VDDK build started; check your registry in OpenShift".

(** A request whose upload is staged without an error, whatever the
    trigger does afterwards. *)
Definition stages_ok (env : Env) : bool :=
  (prepare_status env =? StatusOK)
  && match form_file env with
     | Some fh => bool_decide (fh_open_err fh = None)
     | None => false
     end
  && bool_decide (mkdir_err env = None)
  && bool_decide (create_err env = None)
  && bool_decide (copy_err env = None).

Definition payload (env : Env) : list byte :=
  match form_file env with
  | Some fh => fh_content fh
  | None => []
  end.

(** One acquisition cycle around an upload: the request, the wait
    interval, the wake-up of the goroutine it has left. *)
Definition cycle (env : Env) : list action :=
  [DoBuildImage env; DoElapse waitForDownload; DoWake 0].

Definition cycles (envs : list Env) : list action := concat (map cycle envs).

(** What a download answers in world [w]. *)
Definition retrieve (env : Env) (w : World) : option (list Response) :=
  (fun s => sent (ctx s)) <$> serve (DownloadVddkTar env) w.

(** The state a handler returns in; the entry state if it never returns. *)
Definition stateAfter (handler : M unit unit) (w : World) : St :=
  default (mkSt w emptyCtx [] []) (serve handler w).

(** Everything but a direct call of [resetBusy]: the requests, the clock
    and the goroutines the requests have started. *)
Definition handler_action (a : action) : bool :=
  match a with
  | DoResetBusy => false
  | _ => true
  end.

(** Idle with nobody asleep, or held with exactly one release pending. *)
Definition one_cycle (w : World) : Prop :=
  buildLock w = false /\
  ((isBusy w = false /\ sleepers w = []) \/
   (isBusy w = true /\ exists due, sleepers w = [due])).

(** ** Sample inputs *)

Definition idleWorld : World := mkWorld false false 0 [] ∅ ∅ [].

Definition podWorld : World :=
  with_files {[ defaultNamespaceFile := [x6f; x70; x65; x6e; x73; x0a]%byte ]} idleWorld.

Definition oldFileWorld : World :=
  with_files {[ stagedPath := [xff; xfe; xfd; xfc; xfb]%byte ]} idleWorld.

Definition plainEnv : Env :=
  mkEnv StatusOK None None None None None None None None None None None NotFound.

Definition uploadEnv (content : list byte) : Env :=
  mkEnv StatusOK None (Some (mkFileHeader None content))
        None None None None None None None None None NotFound.

Definition createFailsEnv : Env :=
  mkEnv StatusOK None (Some (mkFileHeader None [x01; x02]%byte))
        None (Some "permission denied"%string) None None None None None None None NotFound.

Definition copyFailsEnv : Env :=
  mkEnv StatusOK None (Some (mkFileHeader None [x01; x02; x03]%byte))
        None None (Some (1%nat, "no space left on device"%string))
        None None None None None None NotFound.

Definition triggerFailsEnv : Env :=
  mkEnv StatusOK None (Some (mkFileHeader None [x01; x02]%byte))
        None None None None None None None None (Some "forbidden"%string) NotFound.

(** ** Further vocabulary: functions called on their own *)

(** A function of the file called in world [w]: what it returns and the
    state it leaves; [None] when it never returns. *)
Definition result {R} (m : M R R) (w : World) : option (R * St) :=
  match call (R':=unit) m (mkSt w emptyCtx [] []) with
  | (Cont r, s) => Some (r, s)
  | _ => None
  end.

(** What [currentNamespace] returns in world [w]. *)
Definition namespaceOf (env : Env) (w : World) : string * option string :=
  match result (currentNamespace env) w with
  | Some (r, _) => r
  | None => (""%string, None)
  end.

(** White space as unicode.IsSpace has it, said without the trimming
    functions: a string that starts with, ends with, or is made of the
    encodings of white-space runes. *)
Definition leadingSpace (s : string) : Prop :=
  exists r rest, In r spaceRunes /\ list_ascii_of_string s = r ++ rest.

Definition trailingSpace (s : string) : Prop :=
  exists r front, In r spaceRunes /\ list_ascii_of_string s = front ++ r.

Definition whiteSpace (s : string) : Prop :=
  exists runes, Forall (fun r => In r spaceRunes) runes
                /\ list_ascii_of_string s = concat runes.

(** The status line a client receives.  gin writes the header with the
    first ctx.JSON or ctx.File: the status of a later write is dropped and
    its bytes are appended to the same body; a handler that writes nothing
    leaves the status set by ctx.Status. *)
Definition wireStatus (c : Ctx) : option Z :=
  match sent c with
  | r :: _ => Some (code r)
  | [] => status c
  end.

(** A JSON envelope as [JSONError] and [JSONSuccess] build them: a text
    message, and "success" exactly under 200, "error" under a 4xx or 5xx
    code.  Bodies written by http.ServeFile are not envelopes. *)
Definition envelope_ok (r : Response) : bool :=
  match body r with
  | JSONBody h =>
      match h !! "status"%string, h !! "message"%string with
      | Some (JStr st), Some (JStr _) =>
          (String.eqb st "success" && (code r =? StatusOK))
          || (String.eqb st "error" && (400 <=? code r) && (code r <? 600))
      | _, _ => false
      end
  | _ => true
  end.

Definition is_envelope (r : Response) : bool :=
  match body r with
  | JSONBody _ => true
  | _ => false
  end.

(** The success envelope of [ImageUrl]. *)
Definition imageEnvelope (ref : string) : Response :=
  mkResponse StatusOK
    (JSONBody (<["data":=JObj (list_to_map [("imageReference"%string, ref)])]>
                 (list_to_map [("status", JStr "success");
                               ("message", JStr ("Image: " +:+ registryImageTag +:+ " exists"))]))).

Definition downloadHeaders : list (string * string) :=
  [("Content-Disposition"%string, "attachment; filename=" +:+ quote vddkTarFileName);
   ("Content-Type"%string, "application/octet-stream"%string)].

(** The namespace file holds a no-break space, U+00A0, and a newline. *)
Definition nbspWorld : World :=
  with_files {[ defaultNamespaceFile := [xc2; xa0; x0a]%byte ]} idleWorld.

(** A directory stands where the staged file is expected. *)
Definition dirWorld : World :=
  with_dirs {[ stagedPath ]} idleWorld.

Definition statFailsEnv : Env :=
  mkEnv StatusOK None None None None None (Some "input/output error"%string)
        None None None None None NotFound.

Definition foundEnv : Env :=
  mkEnv StatusOK None None None None None None None None None None None
        (Found "registry/vddk@sha256:1").

Definition forbiddenEnv : Env :=
  mkEnv 403 (Some "forbidden"%string) (Some (mkFileHeader None [x01]%byte))
        None None None None None None None None None (Found "registry/vddk@sha256:1").

End Vddk.

(* ===================================================================== *)
(** * Requests and the releases they start, interleaved                  *)
(* ===================================================================== *)

(** The goroutines that the code of the package creates: a request runs
    [BuildImage] from line 62 and is not atomic, and a release goroutine
    exists only once an admitted request has returned (the call of
    [resetBusyAfter] is deferred at line 70 and [resetBusy] has no other
    caller).  time.Sleep may return at any later turn of the schedule.
    A request that [Prepare] turns away returns before line 62 and is
    left out.  Lines 70 to 108 are one step: the sequential model shows
    that they touch neither flag nor mutex and that the go statement is
    the last thing an admitted request does. *)

Module Program.

(** Program points.  A request is followed from line 62 to its return; the
    goroutine of [resetBusyAfter] is created by the deferred call, when the
    request returns, and remembers the request that created it. *)
Inductive pc : Type :=
| ReqLock                               (* 62: buildLock.Lock() *)
| ReqCheck                              (* 63: if isBusy *)
| ReqBusyUnlock                         (* 64: buildLock.Unlock() *)
| ReqRespond                            (* 65: JSONError(ctx, 503, ...) *)
| ReqRejected (code : Z) (msg : string) (* 66: return *)
| ReqSet                                (* 68: isBusy = true *)
| ReqUnlock                             (* 69: buildLock.Unlock() *)
| ReqBody                               (* 70-108, then 266: go func() *)
| ReqReturned                           (* the handler has returned *)
| RelSleep (req : nat)                  (* 267: time.Sleep(timeout) *)
| RelLock (req : nat)                   (* 259: buildLock.Lock() *)
| RelClear (req : nat)                  (* 260: isBusy = false *)
| RelUnlock (req : nat)                 (* 261: buildLock.Unlock() *)
| RelDone (req : nat).                  (* 262: return *)

(** [setter] is a history variable: the request whose line 68 wrote the
    value [true] that [isBusy] holds, [None] once line 260 has overwritten
    it.  No statement reads it. *)
Record state : Type := mkState {
  isBusy : bool;
  buildLock : option nat;
  setter : option nat;
  pool : list pc
}.

Inductive outcome : Type :=
| Next (s : state)
| Blocked
| Halted
| Fatal
| NoThread.

Definition goto (t : nat) (p : pc) (s : state) : state :=
  mkState (isBusy s) (buildLock s) (setter s) (<[t:=p]> (pool s)).

Definition Lock (t : nat) (p : pc) (s : state) : outcome :=
  match buildLock s with
  | None => Next (mkState (isBusy s) (Some t) (setter s) (<[t:=p]> (pool s)))
  | Some _ => Blocked
  end.

Definition Unlock (t : nat) (p : pc) (s : state) : outcome :=
  match buildLock s with
  | None => Fatal
  | Some _ => Next (mkState (isBusy s) None (setter s) (<[t:=p]> (pool s)))
  end.

Definition store (t : nat) (b : bool) (p : pc) (s : state) : state :=
  mkState b (buildLock s) (if b then Some t else None) (<[t:=p]> (pool s)).

(** The return of an admitted request: the deferred [resetBusyAfter] runs
    and its go statement adds a goroutine to the pool. *)
Definition spawn (t : nat) (p child : pc) (s : state) : state :=
  mkState (isBusy s) (buildLock s) (setter s) (<[t:=p]> (pool s) ++ [child]).

Definition step (t : nat) (s : state) : outcome :=
  match pool s !! t with
  | None => NoThread
  | Some ReqLock => Lock t ReqCheck s
  | Some ReqCheck => Next (goto t (if isBusy s then ReqBusyUnlock else ReqSet) s)
  | Some ReqBusyUnlock => Unlock t ReqRespond s
  | Some ReqRespond => Next (goto t (ReqRejected StatusServiceUnavailable busyMessage) s)
  | Some (ReqRejected _ _) => Halted
  | Some ReqSet => Next (store t true ReqUnlock s)
  | Some ReqUnlock => Unlock t ReqBody s
  | Some ReqBody => Next (spawn t ReqReturned (RelSleep t) s)
  | Some ReqReturned => Halted
  | Some (RelSleep g) => Next (goto t (RelLock g) s)
  | Some (RelLock g) => Lock t (RelClear g) s
  | Some (RelClear g) => Next (store t false (RelUnlock g) s)
  | Some (RelUnlock g) => Unlock t (RelDone g) s
  | Some (RelDone _) => Halted
  end.

Definition turn (s : state) (t : nat) : state :=
  match step t s with
  | Next s' => s'
  | _ => s
  end.

Definition run (sched : list nat) (s : state) : state := fold_left turn sched s.

(** The package as it starts, with [n] requests about to enter line 62:
    [isBusy] is false, the mutex free, and no other goroutine of the
    package exists. *)
Definition init (n : nat) : state := mkState false None None (replicate n ReqLock).

Definition holds (p : pc) : bool :=
  match p with
  | ReqCheck | ReqBusyUnlock | ReqSet | ReqUnlock | RelClear _ | RelUnlock _ => true
  | _ => false
  end.

(** The request has set the flag and has not returned. *)
Definition in_body (p : pc) : bool :=
  match p with
  | ReqUnlock | ReqBody => true
  | _ => false
  end.

(** The release has been started and has not yet cleared the flag. *)
Definition pending (p : pc) : bool :=
  match p with
  | RelSleep _ | RelLock _ | RelClear _ => true
  | _ => false
  end.

(** The request that started a release goroutine. *)
Definition origin (p : pc) : option nat :=
  match p with
  | RelSleep g | RelLock g | RelClear g | RelUnlock g | RelDone g => Some g
  | _ => None
  end.

Definition final (p : pc) : bool :=
  match p with
  | ReqRejected _ _ | ReqReturned | RelDone _ => true
  | _ => false
  end.

Definition count (f : pc -> bool) (l : list pc) : nat :=
  length (List.filter f l).

(** Steps left before the goroutine, and the one it starts, have returned. *)
Definition weight (p : pc) : nat :=
  match p with
  | ReqLock => 9
  | ReqCheck => 8
  | ReqBusyUnlock => 2
  | ReqRespond => 1
  | ReqRejected _ _ => 0
  | ReqSet => 7
  | ReqUnlock => 6
  | ReqBody => 5
  | ReqReturned => 0
  | RelSleep _ => 4
  | RelLock _ => 3
  | RelClear _ => 2
  | RelUnlock _ => 1
  | RelDone _ => 0
  end%nat.

Definition total (l : list pc) : nat := list_sum (map weight l).

(** A release about to clear a flag that another request has set. *)
Definition stale (s : state) : Prop :=
  exists t g r, pool s !! t = Some (RelClear g) /\ setter s = Some r /\ r <> g.

(** The invariant of every state of a run from [init n]. *)
Record inv (s : state) : Prop := mkInv {
  inv_holder : forall t, buildLock s = Some t ->
      exists p, pool s !! t = Some p /\ holds p = true;
  inv_excl : forall t p, pool s !! t = Some p -> holds p = true -> buildLock s = Some t;
  inv_at_set : forall t, pool s !! t = Some ReqSet -> isBusy s = false;
  inv_one : (count in_body (pool s) + count pending (pool s) = Nat.b2n (isBusy s))%nat;
  inv_setter : isBusy s = false -> setter s = None;
  inv_in_body : forall t p, pool s !! t = Some p -> in_body p = true -> setter s = Some t;
  inv_pending : forall t p g, pool s !! t = Some p -> pending p = true ->
      origin p = Some g -> setter s = Some g;
  inv_origin : forall t p g, pool s !! t = Some p -> origin p = Some g ->
      pool s !! g = Some ReqReturned
}.

End Program.

(* ===================================================================== *)
(** * The lease under interleaving                                        *)
(* ===================================================================== *)

Module LeaseProofs.
Import Lease.
Local Open Scope nat_scope.

(** ** Counting program points *)

Lemma count_cons f p l : count f (p :: l) = Nat.b2n (f p) + count f l.
Proof. unfold count. simpl. destruct (f p); reflexivity. Qed.

Lemma count_insert f (l : list pc) t p q :
  l !! t = Some p ->
  count f (<[t:=q]> l) + Nat.b2n (f p) = count f l + Nat.b2n (f q).
Proof.
  revert t. induction l as [|x l IH]; intros [|t] Hl; try discriminate.
  - injection Hl as ->. change (<[0:=q]> (p :: l)) with (q :: l).
    rewrite !count_cons. lia.
  - change (<[S t:=q]> (x :: l)) with (x :: <[t:=q]> l).
    rewrite !count_cons. specialize (IH t Hl). lia.
Qed.

Lemma count_pos f (l : list pc) t p :
  l !! t = Some p -> f p = true -> 0 < count f l.
Proof.
  revert t. induction l as [|x l IH]; intros [|t] Hl Hf; try discriminate.
  - injection Hl as ->. rewrite count_cons, Hf. simpl. lia.
  - rewrite count_cons. specialize (IH t Hl Hf). lia.
Qed.

Lemma count_pos_inv f (l : list pc) :
  0 < count f l -> exists t p, l !! t = Some p /\ f p = true.
Proof.
  induction l as [|x l IH]; intros H.
  - unfold count in H. simpl in H. lia.
  - rewrite count_cons in H. destruct (f x) eqn:Hx.
    + exists 0, x. split; [reflexivity | assumption].
    + simpl in H. destruct (IH H) as (t & p & Ht & Hp).
      exists (S t), p. split; assumption.
Qed.

Lemma count_le_one f (l : list pc) :
  (forall t t' p p', l !! t = Some p -> l !! t' = Some p' ->
     f p = true -> f p' = true -> t = t') ->
  count f l <= 1.
Proof.
  induction l as [|x l IH]; intros H.
  - unfold count. simpl. lia.
  - rewrite count_cons. destruct (f x) eqn:Hx.
    + assert (count f l = 0) as ->; [|simpl; lia].
      destruct (count f l) eqn:Hc; [reflexivity|].
      destruct (count_pos_inv f l) as (t & p & Ht & Hp); [lia|].
      specialize (H 0 (S t) x p eq_refl Ht Hx Hp). discriminate.
    + simpl. apply IH. intros t t' p p' Ht Ht' Hp Hp'.
      specialize (H (S t) (S t') p p' Ht Ht' Hp Hp'). lia.
Qed.

Lemma count_split f g (l : list pc) :
  (forall t p, l !! t = Some p -> xorb (f p) (g p) = true) ->
  count f l + count g l = length l.
Proof.
  induction l as [|x l IH]; intros H.
  - reflexivity.
  - rewrite !count_cons. simpl length.
    assert (Hx := H 0 x eq_refl).
    assert (count f l + count g l = length l) as Hl.
    { apply IH. intros t p Ht. apply (H (S t) p Ht). }
    destruct (f x), (g x); simpl in *; try discriminate; lia.
Qed.

Lemma count_zero f (l : list pc) :
  (forall t p, l !! t = Some p -> f p = false) -> count f l = 0.
Proof.
  intros H. destruct (count f l) eqn:Hc; [reflexivity|].
  destruct (count_pos_inv f l) as (t & p & Ht & Hp); [lia|].
  rewrite (H t p Ht) in Hp. discriminate.
Qed.

Lemma total_insert (l : list pc) t p q :
  l !! t = Some p ->
  total (<[t:=q]> l) + weight p = total l + weight q.
Proof.
  revert t. induction l as [|x l IH]; intros [|t] Hl; try discriminate.
  - injection Hl as ->. unfold total. simpl. lia.
  - change (<[S t:=q]> (x :: l)) with (x :: <[t:=q]> l).
    unfold total in *. simpl. specialize (IH t Hl). lia.
Qed.


(** ** One step *)

Lemma lookup_insert_cases (l : list pc) t q t' p' :
  <[t:=q]> l !! t' = Some p' ->
  (t' = t /\ p' = q) \/ (t' <> t /\ l !! t' = Some p').
Proof.
  intros H. destruct (decide (t' = t)) as [->|Hne].
  - left. split; [reflexivity|].
    assert (t < length l) as Hlt.
    { apply lookup_lt_Some in H. rewrite length_insert in H. exact H. }
    rewrite list_lookup_insert_eq in H by exact Hlt. congruence.
  - right. split; [exact Hne|].
    rewrite list_lookup_insert_ne in H by congruence. exact H.
Qed.

(** Every move rewrites the mover's program point and nothing else in the
    pool. *)
Lemma step_shape t s s' :
  step t s = Next s' ->
  exists p q, pool s !! t = Some p /\ pool s' = <[t:=q]> (pool s) /\
              weight p = S (weight q) /\ is_acq p = is_acq q /\ final p = false.
Proof.
  unfold step. destruct (pool s !! t) as [p|] eqn:Hp; [|discriminate].
  destruct p; unfold Lock, Unlock, goto, store;
    destruct (buildLock s); try discriminate; intros [= <-];
    (eexists _, _; split; [reflexivity|]; split; [reflexivity|]);
    simpl; try destruct (isBusy s); auto.
Qed.

Ltac other_thread H :=
  apply lookup_insert_cases in H; destruct H as [[-> H]|[? H]].

Lemma step_inv busy0 t s s' :
  inv busy0 s -> step t s = Next s' -> inv busy0 s'.
Proof.
  intros [Hh He Hs Hr Hb Hl Hc] Hstep. unfold step in Hstep.
  destruct (pool s !! t) as [p|] eqn:Hp; [|discriminate].
  assert (t < length (pool s)) as Hlt by (eapply lookup_lt_Some; eauto).
  destruct (isBusy s) eqn:HB;
  destruct p; unfold Lock, Unlock, goto, store in Hstep;
    destruct (buildLock s) as [o|] eqn:HL; try discriminate;
    injection Hstep as <-.
  all: try (assert (Some o = Some t) as [= ->] by (eapply He; [exact Hp|reflexivity])).
  all: try (exfalso; specialize (He t _ Hp eq_refl); discriminate).
  all: try (exfalso; specialize (Hs t Hp); discriminate).
  all: match goal with |- inv _ (mkState _ _ (<[_:=?q]> _)) =>
         pose proof (count_insert has_set (pool s) t _ q Hp) as Chas;
         pose proof (count_insert cleared (pool s) t _ q Hp) as Ccl;
         pose proof (count_insert lost (pool s) t _ q Hp) as Clost
       end; simpl in Chas, Ccl, Clost, Hc.
  all: constructor; simpl; rewrite ?HB; simpl;
    [ first
        [ intros t0 Ht; discriminate Ht
        | intros t0 [= <-];
          first
            [ eexists; split; [apply list_lookup_insert_eq; exact Hlt | reflexivity]
            | destruct (Hh _ eq_refl) as (po & Ho & Hho); exists po;
              split; [|exact Hho];
              rewrite list_lookup_insert_ne; [exact Ho|];
              intros <-; rewrite Hp in Ho; injection Ho as <-; discriminate Hho ] ]
    | intros t0 p0 H Hq; other_thread H;
      [ subst p0; first [discriminate Hq | reflexivity]
      | specialize (He _ _ H Hq); first [discriminate He | congruence] ]
    | intros t0 H; other_thread H;
      [ first [discriminate H | reflexivity]
      | first [ reflexivity
              | apply Hs in H; congruence
              | specialize (He _ _ H eq_refl); congruence ] ]
    | intros t0 c m H; other_thread H;
      [ first [discriminate H | injection H as <- <-; split; reflexivity]
      | eapply Hr; exact H ]
    | intros Hx;
      first [ discriminate Hx
            | right; lia
            | destruct (Hb eq_refl) as [Hy|Hy]; [left; exact Hy | right; lia] ]
    | intros Hx;
      first [ assert (0 < count lost (pool s)) as Hz by lia;
              destruct (Hl Hz) as [Hy|Hy]; [left; exact Hy | right; lia]
            | destruct (Hb eq_refl) as [Hy|Hy]; [left; exact Hy | right; lia] ]
    | lia ].
Qed.


Lemma lookup_forallb (f : pc -> bool) (l : list pc) t p :
  forallb f l = true -> l !! t = Some p -> f p = true.
Proof.
  intros H Hl. rewrite forallb_forall in H. apply H.
  apply list_elem_of_In. eapply list_elem_of_lookup_2. exact Hl.
Qed.

Lemma forallb_lookup (f : pc -> bool) (l : list pc) :
  (forall t p, l !! t = Some p -> f p = true) -> forallb f l = true.
Proof.
  intros H. apply forallb_forall. intros p Hin.
  apply list_elem_of_In, list_elem_of_lookup_1 in Hin as [t Ht]. eauto.
Qed.

Lemma forallb_false_lookup (f : pc -> bool) (l : list pc) :
  forallb f l = false -> exists t p, l !! t = Some p /\ f p = false.
Proof.
  induction l as [|x l IH]; simpl; [discriminate|].
  destruct (f x) eqn:Hx; simpl.
  - intros H. destruct (IH H) as (t & p & Ht & Hp). exists (S t), p. auto.
  - intros _. exists 0, x. auto.
Qed.

Lemma init_inv busy0 threads :
  forallb fresh threads = true -> inv busy0 (init busy0 threads).
Proof.
  intros Hf.
  assert (forall f, (forall p, fresh p = true -> f p = false) ->
                    count f threads = 0) as Hz.
  { intros f Hfp. apply count_zero. intros t p Ht.
    apply Hfp. eapply lookup_forallb; eauto. }
  constructor; simpl.
  - discriminate.
  - intros t p Ht Hp. pose proof (lookup_forallb _ _ _ _ Hf Ht) as Hfr.
    destruct p; discriminate.
  - intros t Ht. pose proof (lookup_forallb _ _ _ _ Hf Ht). discriminate.
  - intros t c m Ht. pose proof (lookup_forallb _ _ _ _ Hf Ht). discriminate.
  - auto.
  - rewrite (Hz lost); [lia|]. intros p; destruct p; simpl; congruence.
  - rewrite (Hz has_set); [lia|]. intros p; destruct p; simpl; congruence.
Qed.

Lemma reachable_inv busy0 s0 s :
  inv busy0 s0 -> reachable s0 s -> inv busy0 s.
Proof.
  intros H0 Hr. induction Hr as [|s t s' _ IH Hstep]; [exact H0|].
  eapply step_inv; eauto.
Qed.

Lemma reachable_trans s0 s1 s2 :
  reachable s0 s1 -> reachable s1 s2 -> reachable s0 s2.
Proof.
  intros H1 H2. induction H2 as [|s t s' _ IH Hstep]; [exact H1|].
  eapply reach_step; eauto.
Qed.

Lemma run_reachable sched s : reachable s (run sched s).
Proof.
  revert s. induction sched as [|t sched IH]; intros s; simpl.
  - constructor.
  - eapply reachable_trans; [|apply IH].
    unfold turn. destruct (step t s) eqn:Hs; try constructor.
    eapply reach_step; [constructor | exact Hs].
Qed.

Lemma run_inv busy0 threads sched :
  forallb fresh threads = true -> inv busy0 (run sched (init busy0 threads)).
Proof.
  intros Hf. eapply reachable_inv; [apply init_inv; exact Hf | apply run_reachable].
Qed.

(** ** Consequences of the invariant *)

Lemma inv_mutex busy0 s t t' p p' :
  inv busy0 s ->
  pool s !! t = Some p -> pool s !! t' = Some p' ->
  holds p = true -> holds p' = true -> t = t'.
Proof.
  intros I Ht Ht' Hp Hp'.
  pose proof (inv_excl _ _ I _ _ Ht Hp) as H1.
  pose proof (inv_excl _ _ I _ _ Ht' Hp') as H2. congruence.
Qed.

Lemma inv_no_fatal busy0 s t : inv busy0 s -> step t s <> Fatal.
Proof.
  intros I. unfold step. destruct (pool s !! t) as [p|] eqn:Hp; [|discriminate].
  destruct p; unfold Lock, Unlock; try discriminate;
    try (destruct (buildLock s); discriminate);
    rewrite (inv_excl _ _ I _ _ Hp eq_refl); discriminate.
Qed.

Lemma count_add f g h (l : list pc) :
  (forall t p, l !! t = Some p -> Nat.b2n (f p) = Nat.b2n (g p) + Nat.b2n (h p)) ->
  count f l = count g l + count h l.
Proof.
  induction l as [|x l IH]; intros H; [reflexivity|].
  rewrite !count_cons, (H 0 x eq_refl), IH; [lia|].
  intros t p Ht. apply (H (S t) p Ht).
Qed.

Lemma inv_at_set_count busy0 s :
  inv busy0 s -> count at_set (pool s) <= Nat.b2n (negb (isBusy s)).
Proof.
  intros I.
  assert (count at_set (pool s) <= 1) as H1.
  { apply count_le_one. intros t t' p p' Ht Ht' Hp Hp'.
    eapply inv_mutex; eauto; [destruct p | destruct p']; simpl in *; congruence. }
  destruct (count at_set (pool s)) eqn:Hc; [lia|].
  destruct (count_pos_inv at_set (pool s)) as (t & p & Ht & Hp); [lia|].
  destruct p; try discriminate.
  rewrite (inv_at_set _ _ I _ Ht). simpl. lia.
Qed.

Lemma inv_won busy0 s :
  inv busy0 s -> count won (pool s) <= count cleared (pool s) + Nat.b2n (negb busy0).
Proof.
  intros I.
  rewrite (count_add won at_set has_set).
  - pose proof (inv_at_set_count _ _ I). pose proof (inv_count _ _ I). lia.
  - intros t p _. destruct p; reflexivity.
Qed.

(** ** Progress and termination *)

Lemma step_total t s s' : step t s = Next s' -> total (pool s) = S (total (pool s')).
Proof.
  intros H. destruct (step_shape _ _ _ H) as (p & q & Hp & -> & Hw & _).
  pose proof (total_insert (pool s) t p q Hp). lia.
Qed.

Lemma step_kinds f t s s' :
  (forall p q, is_acq p = is_acq q -> final p = false -> weight p = S (weight q) ->
     f p = f q) ->
  step t s = Next s' -> count f (pool s') = count f (pool s).
Proof.
  intros Hf H. destruct (step_shape _ _ _ H) as (p & q & Hp & -> & Hw & Hk & Hfin).
  pose proof (count_insert f (pool s) t p q Hp).
  rewrite (Hf p q Hk Hfin Hw) in *. lia.
Qed.

Lemma progress busy0 s :
  inv busy0 s -> forallb final (pool s) = false -> exists t s', step t s = Next s'.
Proof.
  intros I Hnf. destruct (buildLock s) as [o|] eqn:HL.
  - destruct (inv_holder _ _ I o HL) as (p & Hp & Hh).
    exists o. unfold step. rewrite Hp.
    destruct p; try discriminate; unfold Unlock; rewrite ?HL; eauto.
  - destruct (forallb_false_lookup _ _ Hnf) as (t & p & Hp & Hf).
    exists t. unfold step. rewrite Hp.
    destruct p; try discriminate; unfold Lock; rewrite ?HL; eauto;
      pose proof (inv_excl _ _ I _ _ Hp eq_refl); congruence.
Qed.

Lemma terminates busy0 n : forall s,
  inv busy0 s -> total (pool s) <= n ->
  exists sched, forallb final (pool (run sched s)) = true.
Proof.
  induction n as [|n IH]; intros s I Hn;
    (destruct (forallb final (pool s)) eqn:Hf; [exists []; exact Hf|]);
    destruct (progress _ _ I Hf) as (t & s' & Hs);
    pose proof (step_total _ _ _ Hs) as Ht; [lia|].
  destruct (IH s') as [sched Hsched]; [eapply step_inv; eauto | lia |].
  exists (t :: sched). simpl. unfold turn. rewrite Hs. exact Hsched.
Qed.


Lemma count_le f g (l : list pc) :
  (forall p, f p = true -> g p = true) -> count f l <= count g l.
Proof.
  intros H. induction l as [|x l IH]; [reflexivity|].
  rewrite !count_cons. specialize (H x).
  destruct (f x), (g x); simpl; lia.
Qed.

Lemma reachable_count_acq s0 s :
  reachable s0 s -> count is_acq (pool s) = count is_acq (pool s0).
Proof.
  intros Hr. induction Hr as [|s t s' _ IH Hstep]; [reflexivity|].
  rewrite <- IH. eapply step_kinds; [|exact Hstep]. auto.
Qed.

(** When every admission attempt has returned and no release has run,
    one attempt was admitted and the others were rejected. *)
Lemma inv_exactly_one s :
  inv false s ->
  count cleared (pool s) = 0 ->
  0 < count is_acq (pool s) ->
  (forall t p, pool s !! t = Some p -> is_acq p = true -> final p = true) ->
  count is_admitted (pool s) = 1 /\
  count is_rejected (pool s) = count is_acq (pool s) - 1.
Proof.
  intros I Hcl Hn Hfin.
  assert (count is_acq (pool s) =
          count is_admitted (pool s) + count is_rejected (pool s)) as Hsplit.
  { apply count_add. intros t p Hp. specialize (Hfin t p Hp).
    destruct p; simpl in *; try reflexivity; discriminate Hfin; reflexivity. }
  assert (count is_admitted (pool s) <= 1) as Hle.
  { pose proof (inv_won _ _ I) as Hw. simpl in Hw.
    pose proof (count_le is_admitted won (pool s)) as Hm.
    assert (count is_admitted (pool s) <= count won (pool s)).
    { apply Hm. intros p; destruct p; simpl; congruence. }
    lia. }
  assert (0 < count is_admitted (pool s)) as Hge.
  { destruct (count is_admitted (pool s)) eqn:Ha; [|lia]. exfalso.
    destruct (count_pos_inv is_rejected (pool s)) as (t & p & Hp & Hrej); [lia|].
    assert (0 < count lost (pool s)) as Hlost.
    { eapply count_pos; [exact Hp|]. destruct p; simpl in *; congruence. }
    destruct (inv_lost _ _ I Hlost) as [Hb|Hs]; [discriminate|].
    destruct (count_pos_inv has_set (pool s) Hs) as (t' & p' & Hp' & Hset).
    pose proof (Hfin t' p' Hp') as Hf'.
    assert (is_admitted p' = true) as Hadm.
    { destruct p'; simpl in *; try discriminate; try reflexivity.
      discriminate Hf'. reflexivity. }
    pose proof (count_pos is_admitted _ _ _ Hp' Hadm). lia. }
  lia.
Qed.

(** C1. Whatever goroutines run the admission block of [BuildImage]
    (lines 62-69), [resetBusy] and the goroutines of [resetBusyAfter],
    and however they are interleaved:
    - the attempts that have found the lease idle are at most one more
      than the releases that have cleared the flag (none more if the flag
      was set at the start), so at most one attempt is admitted until a
      release runs;
    - an attempt between its check and its set holds the mutex and the
      flag is still clear, and no two goroutines are inside a critical
      section together;
    - no Unlock hits an unlocked mutex; a rejected attempt has answered 503
      with the busy message; the goroutines can all run to completion;
    - once every attempt has returned with no release run, exactly one was
      admitted and all the others were rejected. *)
Theorem admission_at_most_one_until_release
    (busy0 : bool) (threads : list pc) (sched : list nat) :
  forallb fresh threads = true ->
  let s := run sched (init busy0 threads) in
  count won (pool s) <= count cleared (pool s) + Nat.b2n (negb busy0)
  /\ (forall t, pool s !! t = Some AcqSet -> buildLock s = Some t /\ isBusy s = false)
  /\ (forall t t' p p', pool s !! t = Some p -> pool s !! t' = Some p' ->
        holds p = true -> holds p' = true -> t = t')
  /\ (forall t, step t s <> Fatal)
  /\ (forall t c m, pool s !! t = Some (AcqRejected c m) ->
        c = StatusServiceUnavailable /\ m = busyMessage)
  /\ (exists sched', forallb final (pool (run sched' s)) = true)
  /\ (busy0 = false -> count cleared (pool s) = 0 -> 0 < count is_acq threads ->
      (forall t p, pool s !! t = Some p -> is_acq p = true -> final p = true) ->
      count is_admitted (pool s) = 1 /\
      count is_rejected (pool s) = count is_acq threads - 1).
Proof.
  intros Hf s. pose proof (run_inv busy0 threads sched Hf) as I. fold s in I.
  split; [apply (inv_won _ _ I)|].
  split.
  { intros t Ht. split; [|apply (inv_at_set _ _ I _ Ht)].
    apply (inv_excl _ _ I _ _ Ht). reflexivity. }
  split; [intros t t' p p'; apply (inv_mutex _ _ _ _ _ _ I)|].
  split; [intros t; apply (inv_no_fatal _ _ _ I)|].
  split; [intros t c m Ht; apply (inv_rejected _ _ I _ _ _ Ht)|].
  split; [apply (terminates busy0 (total (pool s)) s I); lia|].
  intros -> Hcl Hn Hfin.
  pose proof (reachable_count_acq (init false threads) s (run_reachable _ _)) as Hk.
  simpl in Hk. rewrite <- Hk in Hn |- *.
  apply (inv_exactly_one s I Hcl Hn Hfin).
Qed.

(** Three parallel attempts on an idle lease, interleaved. *)
Lemma admission_at_most_one_until_release_witness :
  forallb fresh [AcqLock; AcqLock; AcqLock] = true /\
  let s := run [1; 0; 2; 1; 1; 2; 1; 0; 0; 2; 2; 0; 0; 2; 2; 2; 2]
               (init false [AcqLock; AcqLock; AcqLock]) in
  count won (pool s) <= count cleared (pool s) + Nat.b2n (negb false)
  /\ (forall t, pool s !! t = Some AcqSet -> buildLock s = Some t /\ isBusy s = false)
  /\ (forall t t' p p', pool s !! t = Some p -> pool s !! t' = Some p' ->
        holds p = true -> holds p' = true -> t = t')
  /\ (forall t, step t s <> Fatal)
  /\ (forall t c m, pool s !! t = Some (AcqRejected c m) ->
        c = StatusServiceUnavailable /\ m = busyMessage)
  /\ (exists sched', forallb final (pool (run sched' s)) = true)
  /\ (false = false -> count cleared (pool s) = 0 ->
      0 < count is_acq [AcqLock; AcqLock; AcqLock] ->
      (forall t p, pool s !! t = Some p -> is_acq p = true -> final p = true) ->
      count is_admitted (pool s) = 1 /\
      count is_rejected (pool s) = count is_acq [AcqLock; AcqLock; AcqLock] - 1).
Proof.
  split; [reflexivity|].
  apply (admission_at_most_one_until_release false [AcqLock; AcqLock; AcqLock]
           [1; 0; 2; 1; 1; 2; 1; 0; 0; 2; 2; 0; 0; 2; 2; 2; 2]).
  reflexivity.
Defined.

Example three_attempts_one_admitted :
  pool (run [1; 0; 2; 1; 1; 2; 1; 0; 0; 2; 2; 0; 0; 2; 2; 2; 2]
            (init false [AcqLock; AcqLock; AcqLock]))
  = [AcqRejected StatusServiceUnavailable busyMessage; AcqAdmitted;
     AcqRejected StatusServiceUnavailable busyMessage].
Proof. reflexivity. Qed.


(** A goroutine that runs alone goes through its operation as the
    sequential model has it: the attempt is admitted exactly when the
    flag was clear and leaves it set, the release leaves it clear, and
    both leave the mutex free. *)
Example admission_alone (busy : bool) :
  run [0; 0; 0; 0] (init busy [AcqLock])
  = mkState true None
      [if busy then AcqRejected StatusServiceUnavailable busyMessage else AcqAdmitted].
Proof. destruct busy; reflexivity. Qed.

Example release_alone (busy : bool) :
  run [0; 0; 0] (init busy [RelLock]) = mkState false None [RelDone].
Proof. destruct busy; reflexivity. Qed.

End LeaseProofs.

(* ===================================================================== *)
(** * The handlers                                                        *)
(* ===================================================================== *)

Module VddkProofs.
Import Vddk.
Local Open Scope Z_scope.

(** Unfolds the monad and the calls around the handlers, and nothing of
    the maps, strings and numbers they carry. *)
Ltac go :=
  cbv beta iota zeta delta
    [serve callResetBusy BuildImage ImageUrl DownloadVddkTar BuildAndPushImage
     currentNamespace imageReference resetBusy resetBusyAfter JSONError JSONSuccess
     run_defers run_deferred triggerOutcome
     bind ret Return call when ifErr stuck log getWorld setWorld setCtx defer
     Lock Unlock loadBusy storeBusy go_sleep_resetBusy
     send ctx_JSON ctx_Status ctx_Header ctx_FormFile ctx_File Prepare SetForkliftError
     fh_Open os_MkdirAll os_Create io_Copy write_file os_ReadFile os_Stat os_IsNotExist
     rest_InClusterConfig buildclientset_NewForConfig imagev1client_NewForConfig
     Instantiate ImageStreamTags_Get
     world ctx trace defers emptyCtx
     isBusy buildLock now sleepers files dirs builds
     with_isBusy with_buildLock with_now with_sleepers with_files with_dirs with_builds
     status forkliftError headers sent code body
     prepare_status prepare_err form_file mkdir_err create_err copy_err stat_err
     readfile_err cluster_config_err build_client_err image_client_err
     instantiate_err image_stream_tag fh_open_err fh_content
     fst snd negb];
  cbn [app].

Lemma stagedPath_ne : filepath_Join uploadDir vddkTarFileName <> defaultNamespaceFile.
Proof. discriminate. Qed.

Lemma namespace_dir_frame (ds : gset string) :
  bool_decide (defaultNamespaceFile ∈ {[uploadDir]} ∪ ds)
  = bool_decide (defaultNamespaceFile ∈ ds).
Proof.
  apply bool_decide_ext. rewrite elem_of_union, elem_of_singleton.
  split; [intros [H|H]; [discriminate H | exact H] | auto].
Qed.

Lemma overwrite_nil (data : list byte) : overwrite data [] = data.
Proof. unfold overwrite. rewrite drop_nil. apply app_nil_r. Qed.

Ltac maps :=
  repeat match goal with
         | |- context [<[?i:=?x]> ?m !! ?i] =>
             rewrite (lookup_insert_eq m i x)
         | |- context [<[filepath_Join uploadDir vddkTarFileName:=?x]> ?m
                         !! defaultNamespaceFile] =>
             rewrite (lookup_insert_ne m _ _ x stagedPath_ne)
         | |- context [bool_decide (defaultNamespaceFile ∈ {[uploadDir]} ∪ ?ds)] =>
             rewrite (namespace_dir_frame ds)
         | |- context [StatusOK =? StatusOK] => change (StatusOK =? StatusOK) with true
         end.

(** Follows every branch of a handler: the scrutinee that decides the
    next test is split, then the run resumes. *)
Ltac branch :=
  go; maps; go;
  repeat (match goal with
          | |- context [match ?x with _ => _ end] =>
              lazymatch x with
              | context [match _ with _ => _ end] => fail
              | _ => destruct x eqn:?
              end
          end; go; maps; go).

(** ** The release *)

Lemma callResetBusy_unlocked w :
  buildLock w = false -> callResetBusy w = Some (with_isBusy false w).
Proof.
  destruct w as [busy lock t sl fs ds bs]. simpl. intros ->. reflexivity.
Qed.

Lemma with_isBusy_idle w : isBusy w = false -> with_isBusy false w = w.
Proof. destruct w. simpl. intros ->. reflexivity. Qed.

Lemma wake_due (i : nat) (w : World) (due : Z) :
  sleepers w !! i = Some due -> due <= now w -> buildLock w = false ->
  wake i w = Some (with_isBusy false (with_sleepers (delete i (sleepers w)) w)).
Proof.
  intros Hi Hdue Hl. unfold wake. rewrite Hi.
  destruct (Z.leb_spec due (now w)); [|lia].
  apply callResetBusy_unlocked. destruct w; exact Hl.
Qed.

Lemma wake_early (i : nat) (w : World) (due : Z) :
  sleepers w !! i = Some due -> now w < due -> wake i w = None.
Proof.
  intros Hi Hdue. unfold wake. rewrite Hi.
  destruct (Z.leb_spec due (now w)); [lia|reflexivity].
Qed.

(** C8. [resetBusy] clears the flag whatever its value, returns with the
    mutex free, and calling it again, any number of times, changes
    nothing more; on a lease that is idle it changes nothing at all. *)
Theorem resetBusy_idempotent (w : World) (n : nat) :
  buildLock w = false ->
  callResetBusy w = Some (with_isBusy false w)
  /\ callResetBusyTimes (S n) w = Some (with_isBusy false w)
  /\ (isBusy w = false -> callResetBusyTimes n w = Some w)
  /\ isBusy (with_isBusy false w) = false
  /\ buildLock (with_isBusy false w) = false.
Proof.
  intros Hl.
  assert (forall k w', buildLock w' = false ->
            callResetBusyTimes k (with_isBusy false w') = Some (with_isBusy false w')) as Hk.
  { induction k as [|k IH]; intros w' Hw'; [reflexivity|].
    simpl. rewrite callResetBusy_unlocked by (destruct w'; exact Hw').
    destruct w'; simpl in *. apply (IH (mkWorld false buildLock0 now0 sleepers0 files0 dirs0 builds0)).
    exact Hw'. }
  split; [apply callResetBusy_unlocked; exact Hl|].
  split; [simpl; rewrite callResetBusy_unlocked by exact Hl; apply Hk; exact Hl|].
  split; [|split; [reflexivity | destruct w; exact Hl]].
  intros Hb. rewrite <- (with_isBusy_idle w Hb) at 1 2. rewrite Hk by exact Hl.
  reflexivity.
Qed.


(** ** BuildImage *)

(** C7. A request that passes [Prepare] while the lease is held is
    answered 503 with the busy message and nothing else happens: the
    world (flag, sleepers, files, directories, builds) is the one before,
    and the run consists of [Prepare], the locked read of the flag and the
    write of the response. *)
Theorem rejected_request_has_no_effect (env : Env) (w : World) :
  prepare_status env = StatusOK -> isBusy w = true -> buildLock w = false ->
  exists s, serve (BuildImage env) w = Some s
    /\ world s = w
    /\ sent (ctx s) = [errorEnvelope StatusServiceUnavailable busyMessage]
    /\ trace s = [EvPrepare; EvLock; EvLoadBusy true; EvUnlock;
                  EvWrite StatusServiceUnavailable]
    /\ none_of file_event (trace s) = true
    /\ none_of trigger_event (trace s) = true.
Proof.
  intros Hp Hb Hl. destruct w as [busy lock t sl fs ds bs], env. simpl in *. subst.
  go. maps. go.
  eexists. repeat split.
Qed.

Lemma rejected_request_has_no_effect_witness :
  prepare_status (uploadEnv [x01; x02]%byte) = StatusOK /\
  isBusy (with_isBusy true podWorld) = true /\
  buildLock (with_isBusy true podWorld) = false /\
  exists s, serve (BuildImage (uploadEnv [x01; x02]%byte)) (with_isBusy true podWorld) = Some s
    /\ world s = with_isBusy true podWorld
    /\ sent (ctx s) = [errorEnvelope StatusServiceUnavailable busyMessage]
    /\ trace s = [EvPrepare; EvLock; EvLoadBusy true; EvUnlock;
                  EvWrite StatusServiceUnavailable]
    /\ none_of file_event (trace s) = true
    /\ none_of trigger_event (trace s) = true.
Proof.
  split; [reflexivity|]. split; [reflexivity|]. split; [reflexivity|].
  apply (rejected_request_has_no_effect (uploadEnv [x01; x02]%byte)
           (with_isBusy true podWorld)); reflexivity.
Defined.

(** C2 as stated fails: an upload without a file, arriving at an idle
    lease, is answered 400 but leaves the flag set and a release
    scheduled. *)
Lemma missing_file_takes_the_lease :
  exists s, serve (BuildImage plainEnv) idleWorld = Some s
    /\ sent (ctx s) = [errorEnvelope StatusBadRequest "No file provided"]
    /\ isBusy (world s) <> isBusy idleWorld
    /\ sleepers (world s) <> sleepers idleWorld.
Proof.
  eexists. split; [vm_compute; reflexivity|]. split; [reflexivity|].
  split; discriminate.
Qed.

(** C2, amended. A request without a file that passes [Prepare]:
    at an idle lease it is answered 400 "No file provided", touches no
    file, directory or build, and has taken the lease, with one release
    scheduled for the wait interval; at a held lease it is answered 503
    and the world is the one before. *)
Theorem missing_file_bad_request (env : Env) (w : World) :
  prepare_status env = StatusOK -> form_file env = None -> buildLock w = false ->
  exists s, serve (BuildImage env) w = Some s
    /\ files (world s) = files w /\ dirs (world s) = dirs w
    /\ builds (world s) = builds w
    /\ none_of write_event (trace s) = true
    /\ none_of trigger_event (trace s) = true
    /\ (isBusy w = false ->
          sent (ctx s) = [errorEnvelope StatusBadRequest "No file provided"]
          /\ isBusy (world s) = true
          /\ sleepers (world s) = sleepers w ++ [now w + waitForDownload])
    /\ (isBusy w = true ->
          sent (ctx s) = [errorEnvelope StatusServiceUnavailable busyMessage]
          /\ world s = w).
Proof.
  intros Hp Hf Hl. destruct w as [busy lock t sl fs ds bs], env. simpl in *. subst.
  go. maps. go.
  destruct busy; go; eexists; (split; [reflexivity|]); repeat split;
    discriminate.
Qed.

Lemma missing_file_bad_request_witness :
  prepare_status plainEnv = StatusOK /\ form_file plainEnv = None /\
  buildLock idleWorld = false /\
  exists s, serve (BuildImage plainEnv) idleWorld = Some s
    /\ files (world s) = files idleWorld /\ dirs (world s) = dirs idleWorld
    /\ builds (world s) = builds idleWorld
    /\ none_of write_event (trace s) = true
    /\ none_of trigger_event (trace s) = true
    /\ (isBusy idleWorld = false ->
          sent (ctx s) = [errorEnvelope StatusBadRequest "No file provided"]
          /\ isBusy (world s) = true
          /\ sleepers (world s) = sleepers idleWorld ++ [now idleWorld + waitForDownload])
    /\ (isBusy idleWorld = true ->
          sent (ctx s) = [errorEnvelope StatusServiceUnavailable busyMessage]
          /\ world s = idleWorld).
Proof.
  split; [reflexivity|]. split; [reflexivity|]. split; [reflexivity|].
  apply (missing_file_bad_request plainEnv idleWorld); reflexivity.
Defined.

(** A file part that is present but holds no bytes is not a missing file:
    it is staged as an empty artifact and the build is triggered. *)
Example empty_upload_is_staged :
  (fun s => (sent (ctx s), files (world s) !! stagedPath, builds (world s)))
    <$> serve (BuildImage (uploadEnv [])) podWorld
  = Some ([successEnvelope startedMessage], Some [], [("opens"%string, buildConfigName)]).
Proof. vm_compute. reflexivity. Qed.

(** C3 fails at file creation: line 93 answers and line 95 does not
    return, so the handler goes on to io.Copy with a nil file, which
    fails, and line 99 answers a second time. *)
Theorem create_failure_answers_twice (env : Env) (w : World) (fh : FileHeader) (e : string) :
  prepare_status env = StatusOK -> isBusy w = false -> buildLock w = false ->
  form_file env = Some fh -> fh_open_err fh = None -> mkdir_err env = None ->
  create_err env = Some e ->
  exists s, serve (BuildImage env) w = Some s
    /\ sent (ctx s) =
         [errorEnvelope StatusInternalServerError
            ("error: " +:+ e +:+ ", Could not save file on disk: " +:+ stagedPath +:+ ". ");
          errorEnvelope StatusInternalServerError
            ("error copy to the local file: " +:+ ErrInvalid +:+ ". ")]
    /\ length (sent (ctx s)) = 2%nat.
Proof.
  intros Hp Hb Hl Hf Ho Hm Hc. destruct w as [busy lock t sl fs ds bs], env, fh.
  simpl in *. subst.
  go. maps. go.
  eexists. repeat split.
Qed.

Lemma create_failure_answers_twice_witness :
  prepare_status createFailsEnv = StatusOK /\ isBusy idleWorld = false /\
  buildLock idleWorld = false /\
  form_file createFailsEnv = Some (mkFileHeader None [x01; x02]%byte) /\
  fh_open_err (mkFileHeader None [x01; x02]%byte) = None /\
  mkdir_err createFailsEnv = None /\
  create_err createFailsEnv = Some "permission denied"%string /\
  exists s, serve (BuildImage createFailsEnv) idleWorld = Some s
    /\ sent (ctx s) =
         [errorEnvelope StatusInternalServerError
            ("error: " +:+ "permission denied" +:+ ", Could not save file on disk: "
             +:+ stagedPath +:+ ". ");
          errorEnvelope StatusInternalServerError
            ("error copy to the local file: " +:+ ErrInvalid +:+ ". ")]
    /\ length (sent (ctx s)) = 2%nat.
Proof.
  do 7 (split; [reflexivity|]).
  apply (create_failure_answers_twice createFailsEnv idleWorld
           (mkFileHeader None [x01; x02]%byte) "permission denied");
    reflexivity.
Defined.


(** The other exits answer once: with the file created, or the request
    stopped before line 91, the handler writes a single response. *)
Lemma BuildImage_answers_once (env : Env) (w : World) :
  prepare_status env = StatusOK -> buildLock w = false -> create_err env = None ->
  exists s, serve (BuildImage env) w = Some s /\ length (sent (ctx s)) = 1%nat.
Proof.
  intros Hp Hl Hc. destruct w as [busy lock t sl fs ds bs], env. simpl in *. subst.
  branch; eexists; (split; [reflexivity|]); reflexivity.
Qed.

Lemma new_sleeper_timing (w0 : World) (sl : list Z) (t : Z) :
  sleepers w0 = sl ++ [t + waitForDownload] -> now w0 = t -> buildLock w0 = false ->
  (forall d, 0 <= d < waitForDownload ->
     elapse d w0 ≫= wake (length sl) = None)
  /\ exists w', elapse waitForDownload w0 ≫= wake (length sl) = Some w'
       /\ isBusy w' = false /\ sleepers w' = sl.
Proof.
  intros Hs Hn Hl.
  assert (forall d, sleepers (with_now (now w0 + d) w0) !! length sl
                    = Some (t + waitForDownload)) as Hlook.
  { intros d. destruct w0; simpl in *. subst.
    rewrite lookup_app_r by lia. rewrite Nat.sub_diag. reflexivity. }
  split.
  - intros d [Hd0 Hd1]. unfold elapse. destruct (Z.ltb_spec d 0); [lia|]. simpl.
    eapply wake_early; [apply Hlook|]. destruct w0; simpl in *. lia.
  - unfold elapse. change (waitForDownload <? 0) with false. simpl.
    erewrite wake_due; [|apply Hlook| |].
    + eexists. split; [reflexivity|]. destruct w0; simpl in *. subst.
      split; [reflexivity|].
      rewrite (delete_middle sl []). apply app_nil_r.
    + destruct w0; simpl in *. lia.
    + destruct w0; simpl in *. exact Hl.
Qed.

Lemma BuildImage_admitted (env : Env) (w : World) :
  prepare_status env = StatusOK -> isBusy w = false -> buildLock w = false ->
  exists s, serve (BuildImage env) w = Some s
    /\ isBusy (world s) = true
    /\ buildLock (world s) = false
    /\ now (world s) = now w
    /\ sleepers (world s) = sleepers w ++ [now w + waitForDownload]
    /\ List.filter is_go (trace s) = [EvGo waitForDownload]
    /\ last (trace s) = Some (EvGo waitForDownload)
    /\ (stages_ok env = true ->
         sent (ctx s) =
           [match triggerOutcome env w with
            | None => successEnvelope startedMessage
            | Some e => errorEnvelope StatusInternalServerError e
            end]).
Proof.
  intros Hp Hb Hl. destruct w as [busy lock t sl fs ds bs], env.
  unfold stages_ok. simpl in *. subst.
  branch.
  all: eexists; (split; [reflexivity|]); cbn [world ctx trace sent isBusy buildLock now sleepers];
    repeat split;
    try (intros Hst; first [reflexivity | exfalso; revert Hst; cbv; discriminate]).
Qed.

(** C4. A request that passes [Prepare] at an idle lease takes the lease
    and, on every path (no file, open, directory, create, copy or trigger
    failure, success), returns with the flag still set and exactly one
    goroutine of [resetBusyAfter] started, as its last act, due after
    [waitForDownload]: that goroutine cannot wake earlier and can wake at
    that instant, clearing the flag.  When staging succeeds the single
    response is the outcome of [BuildAndPushImage]: the success envelope,
    or 500 with the text of its error. *)
Theorem release_scheduled_exactly_once (env : Env) (w : World) :
  prepare_status env = StatusOK -> isBusy w = false -> buildLock w = false ->
  exists s, serve (BuildImage env) w = Some s
    /\ isBusy (world s) = true
    /\ sleepers (world s) = sleepers w ++ [now w + waitForDownload]
    /\ List.filter is_go (trace s) = [EvGo waitForDownload]
    /\ last (trace s) = Some (EvGo waitForDownload)
    /\ (forall d, 0 <= d < waitForDownload ->
          elapse d (world s) ≫= wake (length (sleepers w)) = None)
    /\ (exists w', elapse waitForDownload (world s) ≫= wake (length (sleepers w)) = Some w'
          /\ isBusy w' = false /\ sleepers w' = sleepers w)
    /\ (stages_ok env = true ->
         sent (ctx s) =
           [match triggerOutcome env w with
            | None => successEnvelope startedMessage
            | Some e => errorEnvelope StatusInternalServerError e
            end]).
Proof.
  intros Hp Hb Hl.
  destruct (BuildImage_admitted env w Hp Hb Hl)
    as (s & Hs & Hbusy & Hlock & Hnow & Hsl & Hgo & Hlast & Hout).
  destruct (new_sleeper_timing (world s) (sleepers w) (now w) Hsl Hnow Hlock)
    as [Hearly Hdue].
  exists s. repeat (split; [assumption|]). assumption.
Qed.

Lemma release_scheduled_exactly_once_witness :
  prepare_status triggerFailsEnv = StatusOK /\ isBusy podWorld = false /\
  buildLock podWorld = false /\
  exists s, serve (BuildImage triggerFailsEnv) podWorld = Some s
    /\ isBusy (world s) = true
    /\ sleepers (world s) = sleepers podWorld ++ [now podWorld + waitForDownload]
    /\ List.filter is_go (trace s) = [EvGo waitForDownload]
    /\ last (trace s) = Some (EvGo waitForDownload)
    /\ (forall d, 0 <= d < waitForDownload ->
          elapse d (world s) ≫= wake (length (sleepers podWorld)) = None)
    /\ (exists w', elapse waitForDownload (world s) ≫= wake (length (sleepers podWorld))
                   = Some w'
          /\ isBusy w' = false /\ sleepers w' = sleepers podWorld)
    /\ (stages_ok triggerFailsEnv = true ->
         sent (ctx s) =
           [match triggerOutcome triggerFailsEnv podWorld with
            | None => successEnvelope startedMessage
            | Some e => errorEnvelope StatusInternalServerError e
            end]).
Proof.
  split; [reflexivity|]. split; [reflexivity|]. split; [reflexivity|].
  apply (release_scheduled_exactly_once triggerFailsEnv podWorld); reflexivity.
Defined.

Example trigger_failure_outcome :
  triggerOutcome triggerFailsEnv podWorld = Some "start build: forbidden"%string
  /\ triggerOutcome (uploadEnv []) podWorld = None.
Proof. split; vm_compute; reflexivity. Qed.

(** C6. In every run of [BuildImage] in which io.Copy fails with [e], the
    last response is 500 carrying [e], [BuildAndPushImage] is never
    entered and no build is instantiated. *)
Theorem copy_failure_is_surfaced (env : Env) (w : World) (s : St) (e : string) :
  serve (BuildImage env) w = Some s ->
  copy_failure (trace s) = Some e ->
  last (sent (ctx s)) =
    Some (errorEnvelope StatusInternalServerError
            ("error copy to the local file: " +:+ e +:+ ". "))
  /\ none_of trigger_event (trace s) = true
  /\ builds (world s) = builds w.
Proof.
  destruct w as [busy lock t sl fs ds bs], env. revert s.
  branch; intros s0 Hs; try discriminate Hs; injection Hs as <-;
    cbn [world ctx trace sent builds]; intros Hc; vm_compute in Hc;
    try discriminate Hc; injection Hc as <-; repeat split.
Qed.

Lemma copy_failure_is_surfaced_witness :
  serve (BuildImage copyFailsEnv) idleWorld
    = Some (stateAfter (BuildImage copyFailsEnv) idleWorld) /\
  copy_failure (trace (stateAfter (BuildImage copyFailsEnv) idleWorld))
    = Some "no space left on device"%string /\
  last (sent (ctx (stateAfter (BuildImage copyFailsEnv) idleWorld))) =
    Some (errorEnvelope StatusInternalServerError
            ("error copy to the local file: " +:+ "no space left on device" +:+ ". "))
  /\ none_of trigger_event (trace (stateAfter (BuildImage copyFailsEnv) idleWorld)) = true
  /\ builds (world (stateAfter (BuildImage copyFailsEnv) idleWorld)) = builds idleWorld.
Proof.
  split; [vm_compute; reflexivity|]. split; [vm_compute; reflexivity|].
  apply (copy_failure_is_surfaced copyFailsEnv idleWorld
           (stateAfter (BuildImage copyFailsEnv) idleWorld) "no space left on device");
    vm_compute; reflexivity.
Defined.

(** The partial copy stays on disk: one byte of three was written. *)
Example copy_failure_leaves_partial_file :
  files (world (stateAfter (BuildImage copyFailsEnv) idleWorld)) !! stagedPath
  = Some [x01]%byte.
Proof. vm_compute. reflexivity. Qed.

(** ** Staging and retrieval *)

Lemma stage_ok (env : Env) (w : World) :
  stages_ok env = true -> isBusy w = false -> buildLock w = false ->
  exists s, serve (BuildImage env) w = Some s
    /\ files (world s) !! stagedPath = Some (payload env)
    /\ isBusy (world s) = true
    /\ buildLock (world s) = false
    /\ now (world s) = now w
    /\ sleepers (world s) = sleepers w ++ [now w + waitForDownload].
Proof.
  intros Hst Hb Hl. destruct w as [busy lock t sl fs ds bs], env.
  unfold stages_ok, payload in *. simpl in *. subst.
  apply andb_prop in Hst as [Hst Hcopy]. apply andb_prop in Hst as [Hst Hcreate].
  apply andb_prop in Hst as [Hst Hmkdir]. apply andb_prop in Hst as [Hprep Hopen].
  apply bool_decide_eq_true in Hcopy, Hcreate, Hmkdir. apply Z.eqb_eq in Hprep.
  destruct form_file0 as [[oe content]|]; [|discriminate Hopen].
  apply bool_decide_eq_true in Hopen. simpl in Hopen. subst.
  branch.
  all: eexists; (split; [reflexivity|]);
    cbn [world ctx trace sent isBusy buildLock now sleepers files];
    unfold stagedPath; maps; rewrite overwrite_nil; repeat split.
Qed.

Lemma retrieve_staged (denv : Env) (w : World) (content : list byte) :
  prepare_status denv = StatusOK -> stat_err denv = None ->
  files w !! stagedPath = Some content ->
  retrieve denv w = Some [mkResponse StatusOK (FileBody content)].
Proof.
  intros Hp Hs Hf. destruct denv, w as [busy lock t sl fs ds bs]. simpl in *. subst.
  unfold retrieve, stagedPath in *. go. maps. go. rewrite !Hf. go.
  reflexivity.
Qed.

Lemma execute_app (a b : list action) (w : World) :
  execute (a ++ b) w = execute a w ≫= execute b.
Proof.
  revert w. induction a as [|x a IH]; intros w; simpl; [reflexivity|].
  destruct (perform x w); simpl; [apply IH | reflexivity].
Qed.

Lemma cycle_ok (env : Env) (w : World) :
  stages_ok env = true -> isBusy w = false -> buildLock w = false -> sleepers w = [] ->
  exists w', execute (cycle env) w = Some w'
    /\ isBusy w' = false /\ buildLock w' = false /\ sleepers w' = []
    /\ files w' !! stagedPath = Some (payload env).
Proof.
  intros Hst Hb Hl Hs.
  destruct (stage_ok env w Hst Hb Hl) as (s & Hserve & Hf & Hb' & Hl' & Hn' & Hs').
  rewrite Hs in Hs'. simpl in Hs'.
  unfold cycle. simpl. rewrite Hserve. simpl.
  unfold elapse. change (waitForDownload <? 0) with false. cbv iota.
  erewrite (wake_due 0 _ (now w + waitForDownload)).
  - eexists. split; [reflexivity|]. destruct (world s); simpl in *. subst.
    repeat split; assumption.
  - destruct (world s); simpl in *. subst. reflexivity.
  - destruct (world s); simpl in *. lia.
  - destruct (world s); simpl in *. assumption.
Qed.

Lemma cycles_ok (envs : list Env) : forall w,
  forallb stages_ok envs = true ->
  isBusy w = false -> buildLock w = false -> sleepers w = [] ->
  exists w', execute (cycles envs) w = Some w'
    /\ isBusy w' = false /\ buildLock w' = false /\ sleepers w' = [].
Proof.
  induction envs as [|env envs IH]; intros w Hall Hb Hl Hs.
  - exists w. repeat split; assumption.
  - simpl in Hall. apply andb_prop in Hall as [Hst Hall].
    destruct (cycle_ok env w Hst Hb Hl Hs) as (w1 & He1 & Hb1 & Hl1 & Hs1 & _).
    destruct (IH w1 Hall Hb1 Hl1 Hs1) as (w2 & He2 & Hfin).
    exists w2. split; [|exact Hfin].
    change (cycles (env :: envs)) with (cycle env ++ cycles envs).
    rewrite execute_app, He1. exact He2.
Qed.

(** C9. After any number of successful uploads, each followed by the
    release of its lease, one more successful upload leaves at the staged
    path exactly its own payload, and a download made right after it
    answers 200 with exactly those bytes, whatever the file held before. *)
Theorem staged_artifact_round_trip (envs : list Env) (env denv : Env) (w : World) :
  isBusy w = false -> buildLock w = false -> sleepers w = [] ->
  forallb stages_ok envs = true -> stages_ok env = true ->
  prepare_status denv = StatusOK -> stat_err denv = None ->
  exists w', execute (cycles envs ++ [DoBuildImage env]) w = Some w'
    /\ files w' !! stagedPath = Some (payload env)
    /\ retrieve denv w' = Some [mkResponse StatusOK (FileBody (payload env))].
Proof.
  intros Hb Hl Hs Hall Hst Hp Hse.
  destruct (cycles_ok envs w Hall Hb Hl Hs) as (w1 & He1 & Hb1 & Hl1 & Hs1).
  destruct (stage_ok env w1 Hst Hb1 Hl1) as (s & Hserve & Hf & _).
  exists (world s). rewrite execute_app, He1. simpl. rewrite Hserve. simpl.
  split; [reflexivity|]. split; [exact Hf|].
  apply retrieve_staged; assumption.
Qed.


Lemma staged_artifact_round_trip_witness :
  isBusy oldFileWorld = false /\ buildLock oldFileWorld = false /\
  sleepers oldFileWorld = [] /\
  forallb stages_ok [uploadEnv [x01; x02; x03]%byte] = true /\
  stages_ok (uploadEnv [x09]%byte) = true /\
  prepare_status plainEnv = StatusOK /\ stat_err plainEnv = None /\
  exists w', execute (cycles [uploadEnv [x01; x02; x03]%byte]
                      ++ [DoBuildImage (uploadEnv [x09]%byte)]) oldFileWorld = Some w'
    /\ files w' !! stagedPath = Some (payload (uploadEnv [x09]%byte))
    /\ retrieve plainEnv w'
        = Some [mkResponse StatusOK (FileBody (payload (uploadEnv [x09]%byte)))].
Proof.
  do 7 (split; [reflexivity|]).
  apply (staged_artifact_round_trip [uploadEnv [x01; x02; x03]%byte]
           (uploadEnv [x09]%byte) plainEnv oldFileWorld); reflexivity.
Defined.

Example second_upload_replaces_first :
  (execute (cycles [uploadEnv [x01; x02; x03]%byte]
            ++ [DoBuildImage (uploadEnv [x09]%byte)]) oldFileWorld
   ≫= retrieve plainEnv)
  = Some [mkResponse StatusOK (FileBody [x09]%byte)].
Proof. vm_compute. reflexivity. Qed.

Lemma resetBusy_idempotent_witness :
  buildLock (with_isBusy true podWorld) = false /\
  callResetBusy (with_isBusy true podWorld)
    = Some (with_isBusy false (with_isBusy true podWorld))
  /\ callResetBusyTimes 4 (with_isBusy true podWorld)
     = Some (with_isBusy false (with_isBusy true podWorld))
  /\ (isBusy (with_isBusy true podWorld) = false ->
      callResetBusyTimes 3 (with_isBusy true podWorld) = Some (with_isBusy true podWorld))
  /\ isBusy (with_isBusy false (with_isBusy true podWorld)) = false
  /\ buildLock (with_isBusy false (with_isBusy true podWorld)) = false.
Proof.
  split; [reflexivity|].
  apply (resetBusy_idempotent (with_isBusy true podWorld) 3). reflexivity.
Defined.

(** ** The read-only endpoints *)

Lemma ImageUrl_frame (env : Env) (w : World) :
  exists s, serve (ImageUrl env) w = Some s /\ world s = w
    /\ none_of lease_event (trace s) = true
    /\ none_of write_event (trace s) = true.
Proof.
  destruct env, w as [busy lock t sl fs ds bs].
  branch; eexists; (split; [reflexivity|]); repeat split.
Qed.

Lemma DownloadVddkTar_frame (env : Env) (w : World) :
  exists s, serve (DownloadVddkTar env) w = Some s /\ world s = w
    /\ none_of lease_event (trace s) = true
    /\ none_of write_event (trace s) = true
    /\ (List.filter file_event (trace s) = []
        \/ List.filter file_event (trace s) = [EvStat stagedPath]
        \/ List.filter file_event (trace s) = [EvStat stagedPath; EvServeFile stagedPath]).
Proof.
  destruct env, w as [busy lock t sl fs ds bs].
  branch; eexists; (split; [reflexivity|]); repeat split;
    cbn [trace]; first [left; reflexivity | right; left; reflexivity
                       | right; right; reflexivity].
Qed.

(** C10. [ImageUrl] and [DownloadVddkTar] return on every input, also
    while the mutex is held, and leave the world as it was: flag, mutex,
    sleepers, files, directories and builds.  Their runs contain no event
    on the lease and no write to the file system; the file events of a
    download are a stat of the staged path and, after it, one read. *)
Theorem read_only_endpoints_frame (env : Env) (w : World) :
  (exists s, serve (ImageUrl env) w = Some s /\ world s = w
     /\ none_of lease_event (trace s) = true
     /\ none_of write_event (trace s) = true)
  /\ (exists s, serve (DownloadVddkTar env) w = Some s /\ world s = w
     /\ none_of lease_event (trace s) = true
     /\ none_of write_event (trace s) = true
     /\ (List.filter file_event (trace s) = []
         \/ List.filter file_event (trace s) = [EvStat stagedPath]
         \/ List.filter file_event (trace s) = [EvStat stagedPath; EvServeFile stagedPath])).
Proof.
  split; [apply ImageUrl_frame | apply DownloadVddkTar_frame].
Qed.

(** ** Release goroutines of earlier cycles *)

(** A sleeper that is due clears the flag whatever the flag protects at
    that moment: nothing in [resetBusy] identifies the cycle. *)
Lemma wake_is_unconditional (i : nat) (w : World) (due : Z) :
  sleepers w !! i = Some due -> due <= now w -> buildLock w = false ->
  exists w', wake i w = Some w' /\ isBusy w' = false /\ buildLock w' = false
    /\ files w' = files w /\ builds w' = builds w.
Proof.
  intros Hi Hd Hl. rewrite (wake_due i w due Hi Hd Hl).
  eexists. split; [reflexivity|]. destruct w; simpl in *. repeat split. exact Hl.
Qed.

(** What a stale release would do.  Suppose [resetBusy] were also called
    directly, which no code of the package does: an upload is admitted at
    0 s and its release is due at 15 s; [resetBusy] is called at 5 s; a
    second upload is admitted at 10 s, its release due at 25 s.  At 15 s
    the goroutine of the first cycle wakes and clears the flag of the
    second cycle, since [resetBusy] carries nothing that names a cycle:
    the mutex is free afterwards, the staged file and the builds are
    untouched, and a third upload is admitted at once.  In the
    interleaving model the same order of statements ends with both
    attempts admitted, the flag clear and the mutex free, and no statement
    on the way is a fatal Unlock. *)
Example direct_resetBusy_makes_a_release_stale :
  let cycles12 :=
    [DoBuildImage (uploadEnv [x01]%byte); DoElapse (5 * Second); DoResetBusy;
     DoElapse (5 * Second); DoBuildImage (uploadEnv [x02]%byte);
     DoElapse (5 * Second)] in
  let second := execute cycles12 podWorld in
  let cleared := second ≫= wake 0 in
  let sched := [0; 0; 0; 0; 1; 1; 1; 3; 3; 3; 3; 2; 2; 2; 2]%nat in
  let threads := [Lease.AcqLock; Lease.RelLock; Lease.RelSleep; Lease.AcqLock] in
  isBusy <$> second = Some true
  /\ now <$> second = Some (15 * Second)
  /\ sleepers <$> second = Some [15 * Second; 25 * Second]
  /\ (fun w => files w !! stagedPath) <$> second = Some (Some [x02]%byte)
  /\ second ≫= wake 1 = None
  /\ isBusy <$> cleared = Some false
  /\ buildLock <$> cleared = Some false
  /\ sleepers <$> cleared = Some [25 * Second]
  /\ files <$> cleared = files <$> second
  /\ builds <$> cleared = builds <$> second
  /\ (cleared ≫= fun w => (fun s => sent (ctx s))
                           <$> serve (BuildImage (uploadEnv [x03]%byte)) w)
     = Some [successEnvelope startedMessage]
  /\ Lease.pool (Lease.run sched (Lease.init false threads))
     = [Lease.AcqAdmitted; Lease.RelDone; Lease.RelDone; Lease.AcqAdmitted]
  /\ Lease.isBusy (Lease.run sched (Lease.init false threads)) = false
  /\ Lease.buildLock (Lease.run sched (Lease.init false threads)) = None
  /\ Lease.pool (Lease.run (take 11 sched) (Lease.init false threads))
     = [Lease.AcqAdmitted; Lease.RelDone; Lease.RelSleep; Lease.AcqAdmitted]
  /\ Lease.isBusy (Lease.run (take 11 sched) (Lease.init false threads)) = true
  /\ (forall k t, Lease.step t (Lease.run (take k sched) (Lease.init false threads))
                  <> Lease.Fatal).
Proof.
  intros cycles12 second cleared sched threads.
  do 16 (split; [vm_compute; reflexivity|]).
  intros k t. eapply LeaseProofs.inv_no_fatal.
  apply (LeaseProofs.run_inv false threads (take k sched)). reflexivity.
Qed.

(** Without the direct call that situation does not arise: requests,
    clock and wake-ups alone keep at most one release pending, and it is
    pending exactly while the flag is set. *)
Lemma BuildImage_one_cycle (env : Env) (w : World) :
  one_cycle w -> exists s, serve (BuildImage env) w = Some s /\ one_cycle (world s).
Proof.
  intros [Hl Hc]. destruct w as [busy lock t sl fs ds bs], env. simpl in *. subst.
  destruct Hc as [[-> ->]|[-> [due ->]]]; branch;
    eexists; (split; [reflexivity|]); (split; [reflexivity|]);
    cbn [world isBusy sleepers];
    first [ left; split; reflexivity
          | right; split; [reflexivity|]; eexists; reflexivity ].
Qed.

Lemma handlers_alone_keep_one_cycle (acts : list action) : forall w w',
  one_cycle w -> forallb handler_action acts = true ->
  execute acts w = Some w' -> one_cycle w'.
Proof.
  induction acts as [|a acts IH]; intros w w' Hw Hall Hex.
  - injection Hex as <-. exact Hw.
  - simpl in Hall. apply andb_prop in Hall as [Ha Hall].
    simpl in Hex. destruct (perform a w) as [w1|] eqn:Hp; [|discriminate Hex].
    apply (IH w1 w'); [|exact Hall|exact Hex]. clear IH Hex Hall.
    destruct a as [env|env|env| |i|d]; simpl in Hp; try discriminate Ha.
    + destruct (BuildImage_one_cycle env w Hw) as (s & Hs & Hc).
      rewrite Hs in Hp. injection Hp as <-. exact Hc.
    + destruct (ImageUrl_frame env w) as (s & Hs & Hws & _).
      rewrite Hs in Hp. injection Hp as <-. rewrite Hws. exact Hw.
    + destruct (DownloadVddkTar_frame env w) as (s & Hs & Hws & _).
      rewrite Hs in Hp. injection Hp as <-. rewrite Hws. exact Hw.
    + destruct Hw as [Hl [[Hb Hs]|[Hb [due Hs]]]].
      * unfold wake in Hp. rewrite Hs in Hp. destruct i; discriminate Hp.
      * unfold wake in Hp. rewrite Hs in Hp. destruct i as [|i]; [|discriminate Hp].
        simpl in Hp. destruct (due <=? now w); [|discriminate Hp].
        rewrite callResetBusy_unlocked in Hp by (destruct w; exact Hl).
        injection Hp as <-. destruct w; simpl in *. subst.
        split; [reflexivity|]. left. split; reflexivity.
    + unfold elapse in Hp. destruct (d <? 0); [discriminate Hp|].
      injection Hp as <-. destruct w; exact Hw.
Qed.

End VddkProofs.

(* ===================================================================== *)
(** * More on the lease under interleaving                                *)
(* ===================================================================== *)

Module LeaseExtra.
Import Lease LeaseProofs.
Local Open Scope nat_scope.

(** Once a release has cleared the flag, the flag can only be set by an
    attempt that has executed line 68. *)
Lemma step_cleared_busy busy0 t s s' :
  inv busy0 s ->
  (0 < count cleared (pool s) -> isBusy s = true -> 0 < count has_set (pool s)) ->
  step t s = Next s' ->
  (0 < count cleared (pool s') -> isBusy s' = true -> 0 < count has_set (pool s')).
Proof.
  intros I K Hstep. unfold step in Hstep.
  destruct (pool s !! t) as [p|] eqn:Hp; [|discriminate].
  destruct (isBusy s) eqn:HB;
  destruct p; unfold Lock, Unlock, goto, store in Hstep;
    destruct (buildLock s) as [o|] eqn:HL; try discriminate;
    injection Hstep as <-.
  all: match goal with |- context [<[_:=?q]> _] =>
         pose proof (count_insert has_set (pool s) t _ q Hp) as Chas;
         pose proof (count_insert cleared (pool s) t _ q Hp) as Ccl
       end; simpl in Chas, Ccl; simpl; rewrite ?HB.
  all: intros Hc Hb; try discriminate Hb; try lia.
  all: try (assert (0 < count has_set (pool s)) by (apply K; [lia|reflexivity]); lia).
Qed.

Lemma reachable_cleared_busy busy0 s0 s :
  inv busy0 s0 -> count cleared (pool s0) = 0 -> reachable s0 s ->
  0 < count cleared (pool s) -> isBusy s = true -> 0 < count has_set (pool s).
Proof.
  intros I0 H0 Hr. induction Hr as [|s t s' Hr IH Hstep]; [lia|].
  eapply step_cleared_busy; [|exact IH|exact Hstep].
  eapply reachable_inv; eauto.
Qed.

Lemma fresh_not_cleared threads :
  forallb fresh threads = true -> count cleared threads = 0.
Proof.
  intros Hf. apply count_zero. intros t p Ht.
  pose proof (lookup_forallb _ _ _ _ Hf Ht). destruct p; simpl in *; congruence.
Qed.

Lemma reachable_length s0 s :
  reachable s0 s -> length (pool s) = length (pool s0).
Proof.
  intros Hr. induction Hr as [|s t s' _ IH Hstep]; [reflexivity|].
  destruct (step_shape _ _ _ Hstep) as (p & q & _ & -> & _).
  rewrite length_insert. exact IH.
Qed.

(** X11. While no release has cleared the flag, an attempt that has set
    it keeps the lease: the flag is still set, whatever the other
    attempts do, and if the flag was set from the start nobody is
    admitted.  The goroutine that holds the mutex has not returned, and
    when all have returned the mutex is free. *)
Theorem lease_held_until_release
    (busy0 : bool) (threads : list pc) (sched : list nat) :
  forallb fresh threads = true ->
  let s := run sched (init busy0 threads) in
  (count cleared (pool s) = 0 -> 0 < count has_set (pool s) -> isBusy s = true)
  /\ (busy0 = true -> count cleared (pool s) = 0 -> count won (pool s) = 0)
  /\ (forall t p, buildLock s = Some t -> pool s !! t = Some p -> final p = false)
  /\ (forallb final (pool s) = true -> buildLock s = None).
Proof.
  intros Hf s. pose proof (run_inv busy0 threads sched Hf) as I. fold s in I.
  split; [|split; [|split]].
  - intros Hc Hs. pose proof (inv_count _ _ I) as Hn. rewrite Hc in Hn.
    destruct (isBusy s), busy0; simpl in Hn; try reflexivity; lia.
  - intros -> Hc. pose proof (inv_won _ _ I) as Hw. simpl in Hw. lia.
  - intros t p HL Hp. destruct (inv_holder _ _ I t HL) as (q & Hq & Hh).
    rewrite Hp in Hq. injection Hq as <-. destruct p; simpl in *; congruence.
  - intros Hfin. destruct (buildLock s) as [t|] eqn:HL; [|reflexivity].
    destruct (inv_holder _ _ I t HL) as (q & Hq & Hh).
    pose proof (lookup_forallb _ _ _ _ Hfin Hq). destruct q; simpl in *; congruence.
Qed.

Lemma lease_held_until_release_witness :
  forallb fresh [AcqLock; AcqLock; AcqLock] = true /\
  let s := run [2; 2; 0; 2; 1; 2; 0; 0; 0; 0]
               (init false [AcqLock; AcqLock; AcqLock]) in
  (count cleared (pool s) = 0 -> 0 < count has_set (pool s) -> isBusy s = true)
  /\ (false = true -> count cleared (pool s) = 0 -> count won (pool s) = 0)
  /\ (forall t p, buildLock s = Some t -> pool s !! t = Some p -> final p = false)
  /\ (forallb final (pool s) = true -> buildLock s = None).
Proof.
  split; [reflexivity|].
  apply (lease_held_until_release false [AcqLock; AcqLock; AcqLock]
           [2; 2; 0; 2; 1; 2; 0; 0; 0; 0]).
  reflexivity.
Defined.

(** X12. Releases that run together, with no admission attempt among
    them: as soon as one of them has executed line 260 the flag is clear
    and stays clear, they can all run to completion, and then the flag is
    clear and the mutex free whatever the flag was at the start. *)
Theorem concurrent_releases_leave_idle
    (busy0 : bool) (threads : list pc) (sched : list nat) :
  forallb fresh threads = true -> count is_acq threads = 0 ->
  let s := run sched (init busy0 threads) in
  (0 < count cleared (pool s) -> isBusy s = false)
  /\ (forall t, step t s <> Fatal)
  /\ (exists sched', forallb final (pool (run sched' s)) = true)
  /\ (threads <> [] -> forallb final (pool s) = true ->
      isBusy s = false /\ buildLock s = None).
Proof.
  intros Hf Hacq s. pose proof (run_inv busy0 threads sched Hf) as I. fold s in I.
  assert (count has_set (pool s) = 0) as Hset.
  { pose proof (reachable_count_acq (init busy0 threads) s (run_reachable _ _)) as Hk.
    simpl in Hk. pose proof (count_le has_set is_acq (pool s)) as Hle.
    assert (count has_set (pool s) <= count is_acq (pool s)).
    { apply Hle. intros p; destruct p; simpl; congruence. }
    lia. }
  assert (0 < count cleared (pool s) -> isBusy s = false) as Hclear.
  { intros Hc. destruct (isBusy s) eqn:HB; [|reflexivity].
    pose proof (reachable_cleared_busy busy0 (init busy0 threads) s
                  (init_inv busy0 threads Hf) (fresh_not_cleared threads Hf)
                  (run_reachable _ _) Hc HB). lia. }
  split; [exact Hclear|].
  split; [intros t; apply (inv_no_fatal _ _ _ I)|].
  split; [apply (terminates busy0 (total (pool s)) s I); lia|].
  intros Hne Hfin. split.
  - apply Hclear.
    assert (length (pool s) = count is_acq (pool s) + count cleared (pool s)) as Hlen.
    { rewrite Nat.add_comm. symmetry. apply count_split. intros t p Hp.
      pose proof (lookup_forallb _ _ _ _ Hfin Hp). destruct p; simpl in *; congruence. }
    pose proof (reachable_count_acq (init busy0 threads) s (run_reachable _ _)) as Hk.
    simpl in Hk.
    pose proof (reachable_length (init busy0 threads) s (run_reachable _ _)) as Hpl.
    simpl in Hpl. destruct threads; [congruence|]. simpl in Hpl. lia.
  - destruct (buildLock s) as [t|] eqn:HL; [|reflexivity].
    destruct (inv_holder _ _ I t HL) as (q & Hq & Hh).
    pose proof (lookup_forallb _ _ _ _ Hfin Hq). destruct q; simpl in *; congruence.
Qed.

Lemma concurrent_releases_leave_idle_witness :
  forallb fresh [RelSleep; RelLock; RelSleep] = true /\
  count is_acq [RelSleep; RelLock; RelSleep] = 0 /\
  let s := run [0; 1; 2; 0; 1; 1; 2; 2; 0; 2; 2; 0; 0; 0]
               (init true [RelSleep; RelLock; RelSleep]) in
  (0 < count cleared (pool s) -> isBusy s = false)
  /\ (forall t, step t s <> Fatal)
  /\ (exists sched', forallb final (pool (run sched' s)) = true)
  /\ ([RelSleep; RelLock; RelSleep] <> [] -> forallb final (pool s) = true ->
      isBusy s = false /\ buildLock s = None).
Proof.
  split; [reflexivity|]. split; [reflexivity|].
  apply (concurrent_releases_leave_idle true [RelSleep; RelLock; RelSleep]
           [0; 1; 2; 0; 1; 1; 2; 2; 0; 2; 2; 0; 0; 0]); reflexivity.
Defined.

Example three_releases_finish :
  run [0; 1; 2; 0; 1; 1; 2; 2; 0; 2; 2; 0; 0; 0] (init true [RelSleep; RelLock; RelSleep])
  = mkState false None [RelDone; RelDone; RelDone].
Proof. reflexivity. Qed.

End LeaseExtra.

(* ===================================================================== *)
(** * More on the handlers and the functions they call                    *)
(* ===================================================================== *)

Module VddkExtra.
Import Vddk VddkProofs.
Local Open Scope Z_scope.

(** ** strings.TrimSpace *)

Lemma dropPrefix_spec (w l r : list ascii) : dropPrefix w l = Some r <-> l = w ++ r.
Proof.
  revert l. induction w as [|a w IH]; intros l; simpl.
  - split; congruence.
  - destruct l as [|b l]; [split; discriminate|].
    destruct (Ascii.eqb_spec a b) as [->|Hne].
    + rewrite IH. split; congruence.
    + split; [discriminate | congruence].
Qed.

Lemma dropRune_some ws (l r : list ascii) :
  dropRune ws l = Some r -> exists w, In w ws /\ l = w ++ r.
Proof.
  induction ws as [|w ws IH]; simpl; [discriminate|].
  destruct (dropPrefix w l) as [r'|] eqn:Hd.
  - intros [= <-]. exists w. split; [left; reflexivity | apply dropPrefix_spec; exact Hd].
  - intros H. destruct (IH H) as (w' & Hin & Hl). exists w'. split; [right|]; assumption.
Qed.

Lemma dropRune_in ws (w r : list ascii) :
  In w ws -> is_Some (dropRune ws (w ++ r)).
Proof.
  induction ws as [|w' ws IH]; simpl; [tauto|].
  intros [->|Hin].
  - rewrite (proj2 (dropPrefix_spec w (w ++ r) r) eq_refl). eexists; reflexivity.
  - destruct (dropPrefix w' (w ++ r)); [eexists; reflexivity | apply IH; exact Hin].
Qed.

Lemma dropRune_none ws (l : list ascii) :
  dropRune ws l = None <-> ~ exists w r, In w ws /\ l = w ++ r.
Proof.
  split.
  - intros Hn (w & r & Hin & ->). destruct (dropRune_in ws w r Hin) as [x Hx]. congruence.
  - intros Hn. destruct (dropRune ws l) as [r|] eqn:Hd; [|reflexivity].
    exfalso. apply Hn. destruct (dropRune_some _ _ _ Hd) as (w & Hin & Hl). eauto.
Qed.

(** The runes taken off the front by [strip]. *)
Lemma strip_runes ws fuel (l : list ascii) :
  exists runes, Forall (fun r => In r ws) runes /\ l = concat runes ++ strip ws fuel l.
Proof.
  revert l. induction fuel as [|fuel IH]; intros l; simpl.
  - exists []. split; [constructor | reflexivity].
  - destruct (dropRune ws l) as [r|] eqn:Hd.
    + destruct (dropRune_some _ _ _ Hd) as (w & Hin & ->).
      destruct (IH r) as (runes & Hall & Hr). exists (w :: runes).
      split; [constructor; assumption|]. simpl. rewrite <- app_assoc, <- Hr. reflexivity.
    + exists []. split; [constructor | reflexivity].
Qed.

Lemma strip_none ws fuel (l : list ascii) :
  Forall (fun r => r <> []) ws -> (length l <= fuel)%nat ->
  dropRune ws (strip ws fuel l) = None.
Proof.
  intros Hne. revert l. induction fuel as [|fuel IH]; intros l Hlen; simpl.
  - destruct l; [|simpl in Hlen; lia]. apply dropRune_none.
    intros (w & r & Hin & Hl). rewrite Forall_forall in Hne.
    apply (Hne w); [apply list_elem_of_In; exact Hin|]. destruct w; [reflexivity | discriminate].
  - destruct (dropRune ws l) as [r|] eqn:Hd; [|exact Hd].
    apply IH. destruct (dropRune_some _ _ _ Hd) as (w & Hin & ->).
    rewrite Forall_forall in Hne. specialize (Hne w (proj2 (list_elem_of_In _ _) Hin)).
    rewrite length_app in Hlen. destruct w; [congruence|]. simpl in Hlen. lia.
Qed.

Lemma strip_fixed ws fuel (l : list ascii) :
  dropRune ws l = None -> strip ws fuel l = l.
Proof. intros H. destruct fuel; simpl; [reflexivity|]. rewrite H. reflexivity. Qed.

Lemma spaceRunes_nonempty : Forall (fun r : list ascii => r <> []) spaceRunes.
Proof. repeat constructor; discriminate. Qed.

Lemma rev_spaceRunes_nonempty :
  Forall (fun r : list ascii => r <> []) (map (@rev ascii) spaceRunes).
Proof. repeat constructor; discriminate. Qed.

Lemma in_rev_runes (w : list ascii) :
  In w (map (@rev ascii) spaceRunes) -> In (rev w) spaceRunes.
Proof.
  intros H. apply in_map_iff in H as (w0 & <- & Hin). rewrite rev_involutive. exact Hin.
Qed.

Lemma rev_concat (runes : list (list ascii)) :
  rev (concat runes) = concat (map (@rev ascii) (rev runes)).
Proof.
  induction runes as [|r runes IH]; [reflexivity|].
  simpl. rewrite rev_app_distr, IH, map_app, concat_app. simpl.
  rewrite app_nil_r. reflexivity.
Qed.

(** [trimLeft] takes white-space runes off the front until none leads. *)
Lemma trimLeft_none (l : list ascii) : dropRune spaceRunes (trimLeft l) = None.
Proof. apply strip_none; [apply spaceRunes_nonempty | reflexivity]. Qed.

Lemma trimRight_none (l : list ascii) :
  dropRune (map (@rev ascii) spaceRunes) (rev (trimRight l)) = None.
Proof.
  unfold trimRight. rewrite rev_involutive.
  apply strip_none; [apply rev_spaceRunes_nonempty | rewrite length_rev; reflexivity].
Qed.

Lemma trimRight_prefix (l : list ascii) :
  exists runes, Forall (fun r => In r spaceRunes) runes /\ l = trimRight l ++ concat runes.
Proof.
  unfold trimRight.
  destruct (strip_runes (map (@rev ascii) spaceRunes) (length l) (rev l)) as (runes & Hall & Hl).
  exists (map (@rev ascii) (rev runes)). split.
  - apply Forall_forall. intros r Hr. apply list_elem_of_In, in_map_iff in Hr as (r0 & <- & Hin).
    apply in_rev_runes. rewrite Forall_forall in Hall. apply Hall.
    apply list_elem_of_In. apply in_rev. exact Hin.
  - rewrite <- rev_concat. rewrite <- rev_app_distr, <- Hl, rev_involutive. reflexivity.
Qed.

Lemma trimRight_keeps_front (l : list ascii) :
  dropRune spaceRunes l = None -> dropRune spaceRunes (trimRight l) = None.
Proof.
  intros Hn. apply dropRune_none. intros (w & r & Hin & Hl).
  destruct (trimRight_prefix l) as (runes & _ & Hr).
  apply (proj1 (dropRune_none _ _) Hn). exists w, (r ++ concat runes).
  split; [exact Hin|]. rewrite Hr at 1. rewrite Hl, app_assoc. reflexivity.
Qed.

Lemma trimRight_nil (l : list ascii) :
  dropRune spaceRunes l = None -> trimRight l = [] -> l = [].
Proof.
  intros Hn He. destruct (trimRight_prefix l) as (runes & Hall & Hr).
  rewrite He in Hr. simpl in Hr. destruct runes as [|r runes]; [exact Hr|].
  exfalso. apply (proj1 (dropRune_none _ _) Hn). exists r, (concat runes).
  split; [|exact Hr]. inversion Hall; assumption.
Qed.

Lemma trimLeft_runes (l : list ascii) :
  exists runes, Forall (fun r => In r spaceRunes) runes /\ l = concat runes ++ trimLeft l.
Proof. apply strip_runes. Qed.


(** No encoding of [spaceRunes] begins another one. *)
Lemma spaceRunes_table :
  forallb (fun w1 =>
    forallb (fun w2 =>
      match dropPrefix w1 w2 with
      | Some _ => bool_decide (w1 = w2)
      | None => true
      end) spaceRunes) spaceRunes = true.
Proof. vm_compute. reflexivity. Qed.

Lemma spaceRunes_prefix_free (w1 w2 : list ascii) :
  In w1 spaceRunes -> In w2 spaceRunes -> is_Some (dropPrefix w1 w2) -> w1 = w2.
Proof.
  intros H1 H2 [r Hr]. pose proof spaceRunes_table as T.
  rewrite forallb_forall in T. specialize (T w1 H1).
  rewrite forallb_forall in T. specialize (T w2 H2).
  rewrite Hr in T. apply bool_decide_eq_true in T. exact T.
Qed.

Lemma app_prefix_cases (a b x y : list ascii) :
  a ++ x = b ++ y -> is_Some (dropPrefix a b) \/ is_Some (dropPrefix b a).
Proof.
  revert b. induction a as [|c a IH]; intros b H.
  - left. simpl. eexists; reflexivity.
  - destruct b as [|d b]; [right; simpl; eexists; reflexivity|].
    simpl in H. injection H as -> H. simpl. rewrite Ascii.eqb_refl. apply IH. exact H.
Qed.

Lemma spaceRunes_decode (w1 w2 x y : list ascii) :
  In w1 spaceRunes -> In w2 spaceRunes -> w1 ++ x = w2 ++ y -> w1 = w2 /\ x = y.
Proof.
  intros H1 H2 H.
  assert (w1 = w2) as ->.
  { destruct (app_prefix_cases _ _ _ _ H) as [Hp|Hp];
      [|symmetry]; apply spaceRunes_prefix_free; assumption. }
  split; [reflexivity|]. apply app_inv_head in H. exact H.
Qed.

Lemma strip_of_runes fuel : forall runes : list (list ascii),
  Forall (fun r => In r spaceRunes) runes ->
  (length (concat runes) <= fuel)%nat ->
  strip spaceRunes fuel (concat runes) = [].
Proof.
  induction fuel as [|fuel IH]; intros runes Hall Hlen.
  - destruct (concat runes); [reflexivity | simpl in Hlen; lia].
  - cbn [strip]. destruct (dropRune spaceRunes (concat runes)) as [r'|] eqn:Hd.
    + destruct (dropRune_some _ _ _ Hd) as (w & Hin & Hl).
      destruct runes as [|r runes].
      { simpl in Hl. destruct w; [|discriminate Hl]. exfalso.
        pose proof spaceRunes_nonempty as Hne. rewrite Forall_forall in Hne.
        apply (Hne [] (proj2 (list_elem_of_In _ _) Hin)). reflexivity. }
      inversion Hall as [|? ? Hr Hrest]; subst.
      cbn [concat] in Hl, Hlen.
      destruct (spaceRunes_decode r w (concat runes) r' Hr Hin Hl) as [-> <-].
      apply IH; [exact Hrest|].
      pose proof spaceRunes_nonempty as Hne. rewrite Forall_forall in Hne.
      specialize (Hne w (proj2 (list_elem_of_In _ _) Hin)).
      rewrite length_app in Hlen. destruct w; [congruence|]. simpl in Hlen. lia.
    + destruct runes as [|r runes]; [reflexivity|]. exfalso.
      inversion Hall as [|? ? Hin Hrest]; subst.
      destruct (dropRune_in spaceRunes r (concat runes) Hin) as [x Hx].
      cbn [concat] in Hd. congruence.
Qed.

Lemma list_of_TrimSpace (s : string) :
  list_ascii_of_string (TrimSpace s) = trimRight (trimLeft (list_ascii_of_string s)).
Proof. unfold TrimSpace. apply list_ascii_of_string_of_list_ascii. Qed.

Lemma TrimSpace_empty (s : string) : TrimSpace s = EmptyString <-> whiteSpace s.
Proof.
  split.
  - intros He. apply (f_equal list_ascii_of_string) in He.
    rewrite list_of_TrimSpace in He. simpl in He.
    apply trimRight_nil in He; [|apply trimLeft_none].
    destruct (trimLeft_runes (list_ascii_of_string s)) as (runes & Hall & Hl).
    rewrite He, app_nil_r in Hl. exists runes. split; assumption.
  - intros (runes & Hall & Hl). unfold TrimSpace, trimLeft. rewrite Hl.
    rewrite strip_of_runes by (exact Hall || reflexivity). reflexivity.
Qed.

Lemma TrimSpace_leading (s : string) : ~ leadingSpace (TrimSpace s).
Proof.
  intros (r & rest & Hin & Hl). rewrite list_of_TrimSpace in Hl.
  pose proof (trimRight_keeps_front _ (trimLeft_none (list_ascii_of_string s))) as Hn.
  apply (proj1 (dropRune_none _ _) Hn). eauto.
Qed.

Lemma TrimSpace_trailing (s : string) : ~ trailingSpace (TrimSpace s).
Proof.
  intros (r & front & Hin & Hl). rewrite list_of_TrimSpace in Hl.
  pose proof (trimRight_none (trimLeft (list_ascii_of_string s))) as Hn.
  apply (proj1 (dropRune_none _ _) Hn). exists (rev r), (rev front).
  split; [apply in_map; exact Hin|]. rewrite Hl, rev_app_distr. reflexivity.
Qed.

Lemma TrimSpace_idempotent (s : string) : TrimSpace (TrimSpace s) = TrimSpace s.
Proof.
  unfold TrimSpace at 1. rewrite list_of_TrimSpace.
  set (x := trimRight (trimLeft (list_ascii_of_string s))).
  assert (trimLeft x = x) as ->.
  { apply strip_fixed, trimRight_keeps_front, trimLeft_none. }
  assert (trimRight x = x) as ->.
  { unfold trimRight at 1. rewrite strip_fixed by apply trimRight_none.
    apply rev_involutive. }
  reflexivity.
Qed.

(** The ASCII case: a newline after the name is removed. *)
Example TrimSpace_newline : TrimSpace (string_of_list_byte [x6f; x70; x65; x6e; x73; x0a]%byte) = "opens"%string.
Proof. vm_compute. reflexivity. Qed.

(** X1. [currentNamespace] reads the namespace file once and changes
    nothing.  It succeeds exactly when the file can be read and is not
    made of white-space runes only (the white space of unicode.IsSpace,
    UTF-8 encoded); the namespace is then the content with the white-space
    runes at both ends removed: not empty, with no white-space rune at
    either end, and trimming it again changes nothing.  On failure the
    namespace is the empty string. *)
Theorem currentNamespace_trimmed (env : Env) (w : World) :
  exists ns err s,
    result (currentNamespace env) w = Some ((ns, err), s)
    /\ world s = w
    /\ trace s = [EvReadFile defaultNamespaceFile]
    /\ (err = None <->
        readfile_err env = None /\
        exists content, files w !! defaultNamespaceFile = Some content
                        /\ ~ whiteSpace (string_of_list_byte content))
    /\ (err = None ->
        ns <> EmptyString
        /\ ~ leadingSpace ns
        /\ ~ trailingSpace ns
        /\ TrimSpace ns = ns
        /\ exists content, files w !! defaultNamespaceFile = Some content
                           /\ ns = TrimSpace (string_of_list_byte content))
    /\ (err <> None -> ns = EmptyString).
Proof.
  destruct env, w as [busy lock t sl fs ds bs]. unfold result.
  go. destruct readfile_err0 as [e|]; go.
  { eexists _, _, _. split; [reflexivity|]. repeat split; try discriminate.
    intros [H _]. discriminate H. }
  destruct (fs !! defaultNamespaceFile) as [content|] eqn:Hf; go.
  2:{ destruct (bool_decide (defaultNamespaceFile ∈ ds)); go;
      (eexists _, _, _; split; [reflexivity|]; repeat split; try discriminate;
       intros [_ (c & Hc & _)]; discriminate Hc). }
  destruct (String.eqb_spec (TrimSpace (string_of_list_byte content)) "") as [He|Hne]; go.
  - eexists _, _, _. split; [reflexivity|]. repeat split; try discriminate.
    intros [_ (c & [= <-] & Hc)]. apply TrimSpace_empty in He. contradiction.
  - eexists _, _, _. split; [reflexivity|]. split; [reflexivity|]. split; [reflexivity|].
    split; [|split; [|congruence]].
    + split; [|reflexivity]. intros _. split; [reflexivity|]. exists content.
      split; [reflexivity|]. intros Ha. apply TrimSpace_empty in Ha. contradiction.
    + intros _. split; [exact Hne|].
      split; [apply TrimSpace_leading|]. split; [apply TrimSpace_trailing|].
      split; [apply TrimSpace_idempotent|]. exists content. split; reflexivity.
Qed.

(** A namespace file that holds a no-break space and a newline is an
    empty file for [currentNamespace]. *)
Example namespace_of_nbsp_file :
  namespaceOf plainEnv nbspWorld = (EmptyString, Some "file was empty"%string).
Proof. vm_compute. reflexivity. Qed.

Example namespace_of_pod_file : namespaceOf plainEnv podWorld = ("opens"%string, None).
Proof. vm_compute. reflexivity. Qed.

(** X2. [BuildAndPushImage] goes through namespace, cluster config, build
    client and instantiation in this order and stops at the first that
    fails, returning its error under the prefix of that stage; the later
    stages are not attempted.  It returns nil exactly when one build of
    the config "vddk" has been instantiated in the pod's namespace; on
    every error no build is added.  Lease, clock, files and directories
    are never changed. *)
Theorem BuildAndPushImage_first_failure (env : Env) (w : World) :
  exists err s,
    result (BuildAndPushImage env) w = Some (err, s)
    /\ isBusy (world s) = isBusy w /\ buildLock (world s) = buildLock w
    /\ sleepers (world s) = sleepers w /\ now (world s) = now w
    /\ files (world s) = files w /\ dirs (world s) = dirs w
    /\ (err = None ->
        exists ns, namespaceOf env w = (ns, None)
          /\ builds (world s) = builds w ++ [(ns, buildConfigName)]
          /\ trace s = [EvReadFile defaultNamespaceFile; EvInClusterConfig;
                        EvNewBuildClient; EvInstantiate ns buildConfigName])
    /\ (forall e, err = Some e ->
        builds (world s) = builds w
        /\ ((exists e0, namespaceOf env w = (EmptyString, Some e0)
                /\ e = "failed to get the pod namespace: " +:+ e0
                /\ trace s = [EvReadFile defaultNamespaceFile])
            \/ (exists e0, cluster_config_err env = Some e0
                /\ e = "load kube config: " +:+ e0
                /\ trace s = [EvReadFile defaultNamespaceFile; EvInClusterConfig])
            \/ (exists e0, build_client_err env = Some e0
                /\ e = "create build client: " +:+ e0
                /\ trace s = [EvReadFile defaultNamespaceFile; EvInClusterConfig;
                              EvNewBuildClient])
            \/ (exists e0 ns, instantiate_err env = Some e0
                /\ e = "start build: " +:+ e0
                /\ trace s = [EvReadFile defaultNamespaceFile; EvInClusterConfig;
                              EvNewBuildClient; EvInstantiate ns buildConfigName]))).
Proof.
  destruct env, w as [busy lock t sl fs ds bs]. unfold result, namespaceOf, result.
  branch.
  all: eexists _, _; (split; [reflexivity|]); do 6 (split; [reflexivity|]).
  all: split;
    [ intros Hn; first [discriminate Hn | eexists; repeat split]
    | intros e He; first [discriminate He | injection He as <-];
      (split; [reflexivity|]);
      first [ left; eexists; repeat split; reflexivity
            | right; left; eexists; repeat split; reflexivity
            | right; right; left; eexists; repeat split; reflexivity
            | right; right; right; eexists _, _; repeat split; reflexivity ] ].
Qed.

(** ** BuildImage *)

(** X3. [BuildImage] answers with the success envelope exactly when it has
    instantiated a build, and it instantiates one only after the whole
    upload is on disk: in that case the upload was staged without error,
    the staged file holds exactly the payload, and one build of "vddk" was
    added in the pod's namespace.  On every other path no build is added
    and no response carries 200. *)
Theorem build_started_iff_success (env : Env) (w : World) (s : St) :
  serve (BuildImage env) w = Some s ->
  (sent (ctx s) = [successEnvelope startedMessage]
   /\ stages_ok env = true
   /\ files (world s) !! stagedPath = Some (payload env)
   /\ exists ns, namespaceOf env w = (ns, None)
        /\ builds (world s) = builds w ++ [(ns, buildConfigName)])
  \/ (builds (world s) = builds w
      /\ forallb (fun r => negb (code r =? StatusOK)) (sent (ctx s)) = true).
Proof.
  destruct env, w as [busy lock t sl fs ds bs].
  unfold stages_ok, payload, namespaceOf, result, stagedPath. simpl.
  revert s. branch; intros sfin Hs; try discriminate Hs; injection Hs as <-;
    cbn [world ctx sent files builds];
    first [ right; split; reflexivity
          | left; maps; rewrite ?overwrite_nil;
            (split; [reflexivity|]); (split; [reflexivity|]); (split; [reflexivity|]);
            eexists; split; reflexivity ].
Qed.

Lemma build_started_iff_success_witness :
  serve (BuildImage (uploadEnv [x01; x02]%byte)) podWorld
    = Some (stateAfter (BuildImage (uploadEnv [x01; x02]%byte)) podWorld) /\
  ((sent (ctx (stateAfter (BuildImage (uploadEnv [x01; x02]%byte)) podWorld))
      = [successEnvelope startedMessage]
    /\ stages_ok (uploadEnv [x01; x02]%byte) = true
    /\ files (world (stateAfter (BuildImage (uploadEnv [x01; x02]%byte)) podWorld))
         !! stagedPath = Some (payload (uploadEnv [x01; x02]%byte))
    /\ exists ns, namespaceOf (uploadEnv [x01; x02]%byte) podWorld = (ns, None)
         /\ builds (world (stateAfter (BuildImage (uploadEnv [x01; x02]%byte)) podWorld))
            = builds podWorld ++ [(ns, buildConfigName)])
   \/ (builds (world (stateAfter (BuildImage (uploadEnv [x01; x02]%byte)) podWorld))
         = builds podWorld
       /\ forallb (fun r => negb (code r =? StatusOK))
            (sent (ctx (stateAfter (BuildImage (uploadEnv [x01; x02]%byte)) podWorld)))
          = true)).
Proof.
  split; [vm_compute; reflexivity|].
  apply (build_started_iff_success (uploadEnv [x01; x02]%byte) podWorld).
  vm_compute. reflexivity.
Defined.


(** X4. Whatever the request and wherever it fails, [BuildImage] writes
    to no file but the staged path, creates no directory but the upload
    directory, removes no directory and leaves the clock alone. *)
Theorem BuildImage_storage_frame (env : Env) (w : World) (s : St) :
  serve (BuildImage env) w = Some s ->
  (forall p, p <> stagedPath -> files (world s) !! p = files w !! p)
  /\ (dirs (world s) = dirs w \/ dirs (world s) = {[uploadDir]} ∪ dirs w)
  /\ (forall d, d ∈ dirs w -> d ∈ dirs (world s))
  /\ now (world s) = now w.
Proof.
  destruct env, w as [busy lock t sl fs ds bs]. unfold stagedPath.
  revert s. branch; intros sfin Hs; try discriminate Hs; injection Hs as <-;
    cbn [world files dirs now];
    (split; [intros pth Hpth;
             repeat match goal with
                    | |- context [<[?i:=?x]> ?m !! pth] =>
                        rewrite (lookup_insert_ne m i pth x) by congruence
                    end; reflexivity|]);
    (split; [first [left; reflexivity | right; reflexivity]|]);
    (split; [intros dir Hdir; set_solver|reflexivity]).
Qed.

Lemma BuildImage_storage_frame_witness :
  serve (BuildImage (uploadEnv [x01; x02]%byte)) podWorld
    = Some (stateAfter (BuildImage (uploadEnv [x01; x02]%byte)) podWorld) /\
  (forall p, p <> stagedPath ->
     files (world (stateAfter (BuildImage (uploadEnv [x01; x02]%byte)) podWorld)) !! p
     = files podWorld !! p)
  /\ (dirs (world (stateAfter (BuildImage (uploadEnv [x01; x02]%byte)) podWorld))
        = dirs podWorld
      \/ dirs (world (stateAfter (BuildImage (uploadEnv [x01; x02]%byte)) podWorld))
        = {[uploadDir]} ∪ dirs podWorld)
  /\ (forall d, d ∈ dirs podWorld ->
        d ∈ dirs (world (stateAfter (BuildImage (uploadEnv [x01; x02]%byte)) podWorld)))
  /\ now (world (stateAfter (BuildImage (uploadEnv [x01; x02]%byte)) podWorld))
     = now podWorld.
Proof.
  split; [vm_compute; reflexivity|].
  apply (BuildImage_storage_frame (uploadEnv [x01; x02]%byte) podWorld).
  vm_compute. reflexivity.
Defined.

(** X5. When io.Copy fails after [n] bytes the staged file holds the
    first [n] bytes of the upload and nothing of the artifact that was
    there before; the lease stays taken, and a download answers 200 with
    that truncated content. *)
Theorem copy_failure_leaves_truncated_artifact
    (env denv : Env) (w : World) (fh : FileHeader) (n : nat) (e : string) :
  prepare_status env = StatusOK -> isBusy w = false -> buildLock w = false ->
  form_file env = Some fh -> fh_open_err fh = None -> mkdir_err env = None ->
  create_err env = None -> copy_err env = Some (n, e) ->
  prepare_status denv = StatusOK -> stat_err denv = None ->
  exists s, serve (BuildImage env) w = Some s
    /\ files (world s) !! stagedPath = Some (take n (fh_content fh))
    /\ isBusy (world s) = true
    /\ retrieve denv (world s)
       = Some [mkResponse StatusOK (FileBody (take n (fh_content fh)))].
Proof.
  intros Hp Hb Hl Hf Ho Hm Hc Hcp Hdp Hds.
  assert (exists s, serve (BuildImage env) w = Some s
            /\ files (world s) !! stagedPath = Some (take n (fh_content fh))
            /\ isBusy (world s) = true) as (s & Hs & Hfile & Hbusy).
  { destruct w as [busy lock t sl fs ds bs], env, fh. simpl in *. subst.
    unfold stagedPath. go. maps. go. maps. go.
    eexists. split; [reflexivity|]. cbn [world files isBusy]. maps.
    rewrite overwrite_nil. split; reflexivity. }
  exists s. split; [exact Hs|]. split; [exact Hfile|]. split; [exact Hbusy|].
  apply retrieve_staged; assumption.
Qed.

Lemma copy_failure_leaves_truncated_artifact_witness :
  prepare_status copyFailsEnv = StatusOK /\ isBusy oldFileWorld = false /\
  buildLock oldFileWorld = false /\
  form_file copyFailsEnv = Some (mkFileHeader None [x01; x02; x03]%byte) /\
  fh_open_err (mkFileHeader None [x01; x02; x03]%byte) = None /\
  mkdir_err copyFailsEnv = None /\ create_err copyFailsEnv = None /\
  copy_err copyFailsEnv = Some (1%nat, "no space left on device"%string) /\
  prepare_status plainEnv = StatusOK /\ stat_err plainEnv = None /\
  exists s, serve (BuildImage copyFailsEnv) oldFileWorld = Some s
    /\ files (world s) !! stagedPath
       = Some (take 1 (fh_content (mkFileHeader None [x01; x02; x03]%byte)))
    /\ isBusy (world s) = true
    /\ retrieve plainEnv (world s)
       = Some [mkResponse StatusOK
                 (FileBody (take 1 (fh_content (mkFileHeader None [x01; x02; x03]%byte))))].
Proof.
  do 10 (split; [reflexivity|]).
  apply (copy_failure_leaves_truncated_artifact copyFailsEnv plainEnv oldFileWorld
           (mkFileHeader None [x01; x02; x03]%byte) 1 "no space left on device");
    reflexivity.
Defined.

(** ** Requests that [Prepare] turns away *)

(** X6. A request for which [Prepare] does not return 200 ends there in
    all three handlers: the status is set to the one [Prepare] returned,
    its error is handed to [SetForkliftError], no envelope is written and
    the world is untouched.  [BuildImage] does not reach the mutex: it
    neither takes a free lease nor waits when the mutex is held. *)
Theorem unprepared_request_stops (env : Env) (w : World) :
  prepare_status env <> StatusOK ->
  forall h, h = BuildImage env \/ h = ImageUrl env \/ h = DownloadVddkTar env ->
  exists s, serve h w = Some s
    /\ world s = w
    /\ trace s = [EvPrepare]
    /\ sent (ctx s) = []
    /\ headers (ctx s) = []
    /\ status (ctx s) = Some (prepare_status env)
    /\ forkliftError (ctx s) = Some (prepare_err env).
Proof.
  intros Hne h Hh. apply Z.eqb_neq in Hne.
  destruct env, w as [busy lock t sl fs ds bs]. simpl in *.
  destruct Hh as [->|[->| ->]]; go; rewrite Hne; go;
    eexists; repeat split.
Qed.

Lemma unprepared_request_stops_witness :
  prepare_status forbiddenEnv <> StatusOK /\
  (BuildImage forbiddenEnv = BuildImage forbiddenEnv
   \/ BuildImage forbiddenEnv = ImageUrl forbiddenEnv
   \/ BuildImage forbiddenEnv = DownloadVddkTar forbiddenEnv) /\
  exists s, serve (BuildImage forbiddenEnv) (with_buildLock true idleWorld) = Some s
    /\ world s = with_buildLock true idleWorld
    /\ trace s = [EvPrepare]
    /\ sent (ctx s) = []
    /\ headers (ctx s) = []
    /\ status (ctx s) = Some (prepare_status forbiddenEnv)
    /\ forkliftError (ctx s) = Some (prepare_err forbiddenEnv).
Proof.
  split; [discriminate|]. split; [left; reflexivity|].
  apply (unprepared_request_stops forbiddenEnv (with_buildLock true idleWorld));
    [discriminate | left; reflexivity].
Defined.


(** ** ImageUrl and DownloadVddkTar *)

(** X7. A prepared [ImageUrl] request gets exactly one response, with
    code 200, 404 or 500.  It is 200 only when the tag was found, and
    then carries the reference found; it is 404 only when the registry
    said the tag does not exist.  The registry is asked only after
    namespace, cluster config and image client were all obtained, for
    the tag "vddk:latest" in the pod's namespace; when all of these
    succeed and the tag is found the answer is the success envelope. *)
Theorem ImageUrl_answers (env : Env) (w : World) :
  prepare_status env = StatusOK ->
  exists s r, serve (ImageUrl env) w = Some s
    /\ sent (ctx s) = [r]
    /\ (code r = StatusOK \/ code r = StatusNotFound
        \/ code r = StatusInternalServerError)
    /\ (code r = StatusOK ->
         exists ref, image_stream_tag env = Found ref /\ r = imageEnvelope ref)
    /\ (code r = StatusNotFound ->
         image_stream_tag env = NotFound
         /\ r = errorEnvelope StatusNotFound
                  ("Image: " +:+ registryImageTag +:+ " not found"))
    /\ (forall ns tag, In (EvGetImageStreamTag ns tag) (trace s) ->
         tag = registryImageTag /\ namespaceOf env w = (ns, None)
         /\ cluster_config_err env = None /\ image_client_err env = None)
    /\ (forall ns ref, namespaceOf env w = (ns, None) ->
         cluster_config_err env = None -> image_client_err env = None ->
         image_stream_tag env = Found ref -> r = imageEnvelope ref).
Proof.
  intros Hp. destruct env, w as [busy lock t sl fs ds bs]. simpl in *. subst.
  unfold namespaceOf, result. branch.
  all: eexists _, _; (split; [reflexivity|]); (split; [reflexivity|]).
  all: split; [first [left; reflexivity | right; left; reflexivity
                     | right; right; reflexivity]|].
  all: split; [intros Hc; first [discriminate Hc | eexists; split; reflexivity]|].
  all: split; [intros Hc; first [discriminate Hc | split; reflexivity]|].
  all: split;
    [ intros nsx tagx Hin; cbn [trace In] in Hin;
      repeat (destruct Hin as [Hin|Hin]; try discriminate Hin); try contradiction;
      injection Hin as <- <-; repeat split
    | intros nsx refx Hn Hcc Hic Hist;
      first [discriminate Hn | discriminate Hcc | discriminate Hic | discriminate Hist
            | injection Hist as <-; reflexivity] ].
Qed.

Lemma ImageUrl_answers_witness :
  prepare_status foundEnv = StatusOK /\
  exists s r, serve (ImageUrl foundEnv) podWorld = Some s
    /\ sent (ctx s) = [r]
    /\ (code r = StatusOK \/ code r = StatusNotFound
        \/ code r = StatusInternalServerError)
    /\ (code r = StatusOK ->
         exists ref, image_stream_tag foundEnv = Found ref /\ r = imageEnvelope ref)
    /\ (code r = StatusNotFound ->
         image_stream_tag foundEnv = NotFound
         /\ r = errorEnvelope StatusNotFound
                  ("Image: " +:+ registryImageTag +:+ " not found"))
    /\ (forall ns tag, In (EvGetImageStreamTag ns tag) (trace s) ->
         tag = registryImageTag /\ namespaceOf foundEnv podWorld = (ns, None)
         /\ cluster_config_err foundEnv = None /\ image_client_err foundEnv = None)
    /\ (forall ns ref, namespaceOf foundEnv podWorld = (ns, None) ->
         cluster_config_err foundEnv = None -> image_client_err foundEnv = None ->
         image_stream_tag foundEnv = Found ref -> r = imageEnvelope ref).
Proof.
  split; [reflexivity|].
  apply (ImageUrl_answers foundEnv podWorld). reflexivity.
Defined.

Example image_found :
  (fun s => sent (ctx s)) <$> serve (ImageUrl foundEnv) podWorld
  = Some [imageEnvelope "registry/vddk@sha256:1"].
Proof. vm_compute. reflexivity. Qed.

(** X8. What a prepared [DownloadVddkTar] request decides on the outcome
    of os.Stat.  If the stat fails for another reason than absence the
    handler answers 500 with the error; if nothing is at the staged path,
    neither a file nor a directory, it answers 404 "VDDK tar not found"; in
    both cases it sets no header and does not call ctx.File.  As soon as
    something is there, a directory included, it sets the attachment and
    octet-stream headers and hands the path to ctx.File, and writes no
    envelope of its own: the answer is then what http.ServeFile makes of
    the path. *)
Theorem DownloadVddkTar_decides (env : Env) (w : World) :
  prepare_status env = StatusOK ->
  exists s, serve (DownloadVddkTar env) w = Some s
    /\ (forall e, stat_err env = Some e ->
         sent (ctx s) = [errorEnvelope StatusInternalServerError
                           ("Failed to stat file: " +:+ e)]
         /\ headers (ctx s) = []
         /\ List.filter file_event (trace s) = [EvStat stagedPath])
    /\ (stat_err env = None -> files w !! stagedPath = None -> stagedPath ∉ dirs w ->
         sent (ctx s) = [errorEnvelope StatusNotFound "VDDK tar not found"]
         /\ headers (ctx s) = []
         /\ List.filter file_event (trace s) = [EvStat stagedPath])
    /\ (stat_err env = None ->
        is_Some (files w !! stagedPath) \/ stagedPath ∈ dirs w ->
         take 2 (headers (ctx s)) = downloadHeaders
         /\ List.filter file_event (trace s) = [EvStat stagedPath; EvServeFile stagedPath]
         /\ List.filter is_envelope (sent (ctx s)) = []).
Proof.
  intros Hp. destruct env, w as [busy lock t sl fs ds bs]. simpl in *. subst.
  unfold stagedPath. branch.
  all: simplify_eq.
  all: eexists; (split; [reflexivity|]).
  all: split; [intros e He; first [discriminate He | injection He as <-; repeat split]|].
  all: split; [intros He Hf Hd;
               first [discriminate He | discriminate Hf
                     | exfalso; apply Hd; eapply bool_decide_eq_true_1; eassumption
                     | solve [repeat split] ]|].
  all: intros He Hf;
    first [discriminate He
          | solve [repeat split]
          | exfalso; destruct Hf as [[x Hx]|Hd];
            [discriminate Hx
            | eapply bool_decide_eq_false_1; eassumption ] ].
Qed.

Lemma DownloadVddkTar_decides_witness :
  prepare_status plainEnv = StatusOK /\
  exists s, serve (DownloadVddkTar plainEnv) dirWorld = Some s
    /\ (forall e, stat_err plainEnv = Some e ->
         sent (ctx s) = [errorEnvelope StatusInternalServerError
                           ("Failed to stat file: " +:+ e)]
         /\ headers (ctx s) = []
         /\ List.filter file_event (trace s) = [EvStat stagedPath])
    /\ (stat_err plainEnv = None -> files dirWorld !! stagedPath = None ->
        stagedPath ∉ dirs dirWorld ->
         sent (ctx s) = [errorEnvelope StatusNotFound "VDDK tar not found"]
         /\ headers (ctx s) = []
         /\ List.filter file_event (trace s) = [EvStat stagedPath])
    /\ (stat_err plainEnv = None ->
        is_Some (files dirWorld !! stagedPath) \/ stagedPath ∈ dirs dirWorld ->
         take 2 (headers (ctx s)) = downloadHeaders
         /\ List.filter file_event (trace s) = [EvStat stagedPath; EvServeFile stagedPath]
         /\ List.filter is_envelope (sent (ctx s)) = []).
Proof.
  split; [reflexivity|].
  apply (DownloadVddkTar_decides plainEnv dirWorld). reflexivity.
Defined.

(** A directory at the staged path: os.Stat succeeds, the headers are
    set, and http.ServeFile redirects. *)
Example download_of_directory :
  (fun s => (sent (ctx s), headers (ctx s))) <$> serve (DownloadVddkTar plainEnv) dirWorld
  = Some ([mkResponse StatusMovedPermanently (TextBody "")],
          downloadHeaders ++ [("Location"%string, "download-tar/"%string)]).
Proof. vm_compute. reflexivity. Qed.

Example download_of_nothing :
  (fun s => (sent (ctx s), headers (ctx s))) <$> serve (DownloadVddkTar plainEnv) idleWorld
  = Some ([errorEnvelope StatusNotFound "VDDK tar not found"], []).
Proof. vm_compute. reflexivity. Qed.

(** ** Every envelope *)

(** X9. Every JSON envelope any of the three handlers writes has a text
    "message" and a "status" that is "success" under code 200 and "error"
    under a 4xx or 5xx code; and all the writes of one request carry the
    same code, the one of the status line, so that no envelope disagrees
    with the status the client receives, also where a request writes
    two. *)
Theorem envelopes_well_formed (env : Env) (w : World) :
  (buildLock w = false ->
   exists s, serve (BuildImage env) w = Some s
             /\ forallb envelope_ok (sent (ctx s)) = true
             /\ forall c, wireStatus (ctx s) = Some c ->
                  forallb (fun r => code r =? c) (sent (ctx s)) = true)
  /\ (exists s, serve (ImageUrl env) w = Some s
               /\ forallb envelope_ok (sent (ctx s)) = true
               /\ forall c, wireStatus (ctx s) = Some c ->
                    forallb (fun r => code r =? c) (sent (ctx s)) = true)
  /\ (exists s, serve (DownloadVddkTar env) w = Some s
               /\ forallb envelope_ok (sent (ctx s)) = true
               /\ forall c, wireStatus (ctx s) = Some c ->
                    forallb (fun r => code r =? c) (sent (ctx s)) = true).
Proof.
  destruct env, w as [busy lock t sl fs ds bs]. simpl.
  split; [intros ->|split]; branch;
    eexists; (split; [reflexivity|]); cbn [ctx sent];
    (split; [vm_compute; reflexivity|]);
    unfold wireStatus; cbn [sent status code];
    intros c Hc; first [injection Hc as <-; vm_compute; reflexivity | reflexivity].
Qed.

Example two_envelopes_one_status :
  (fun s => (wireStatus (ctx s), map code (sent (ctx s))))
    <$> serve (BuildImage createFailsEnv) podWorld
  = Some (Some StatusInternalServerError,
          [StatusInternalServerError; StatusInternalServerError]).
Proof. vm_compute. reflexivity. Qed.

(** X13. With the mutex free at entry [BuildImage] always returns, with
    the mutex free again and every Lock of its run followed by an Unlock.
    After it the lease is held exactly if it was held before or the
    request was prepared; a release is scheduled exactly when the request
    was prepared and found the lease idle, and otherwise the sleepers are
    the ones before. *)
Theorem lease_after_request (env : Env) (w : World) :
  buildLock w = false ->
  exists s, serve (BuildImage env) w = Some s
    /\ buildLock (world s) = false
    /\ List.filter (fun e => lease_event e && negb (is_go e)) (trace s)
       = (if prepare_status env =? StatusOK
          then if isBusy w
               then [EvLock; EvLoadBusy true; EvUnlock]
               else [EvLock; EvLoadBusy false; EvStoreBusy true; EvUnlock]
          else [])
    /\ isBusy (world s) = isBusy w || (prepare_status env =? StatusOK)
    /\ sleepers (world s)
       = sleepers w ++ (if (prepare_status env =? StatusOK) && negb (isBusy w)
                        then [now w + waitForDownload] else []).
Proof.
  intros Hl. destruct env, w as [busy lock t sl fs ds bs]. simpl in *. subst.
  destruct (prepare_status0 =? StatusOK) eqn:Hp.
  - apply Z.eqb_eq in Hp. subst. destruct busy; cbn [andb orb negb]; branch;
      eexists; (split; [reflexivity|]); cbn [world trace isBusy buildLock sleepers];
      rewrite ?app_nil_r; repeat split.
  - go. rewrite Hp. go. eexists. split; [reflexivity|].
    cbn [world trace isBusy buildLock sleepers].
    rewrite app_nil_r, orb_false_r. repeat split.
Qed.

Lemma lease_after_request_witness :
  buildLock podWorld = false /\
  exists s, serve (BuildImage createFailsEnv) podWorld = Some s
    /\ buildLock (world s) = false
    /\ List.filter (fun e => lease_event e && negb (is_go e)) (trace s)
       = (if prepare_status createFailsEnv =? StatusOK
          then if isBusy podWorld
               then [EvLock; EvLoadBusy true; EvUnlock]
               else [EvLock; EvLoadBusy false; EvStoreBusy true; EvUnlock]
          else [])
    /\ isBusy (world s) = isBusy podWorld || (prepare_status createFailsEnv =? StatusOK)
    /\ sleepers (world s)
       = sleepers podWorld
         ++ (if (prepare_status createFailsEnv =? StatusOK) && negb (isBusy podWorld)
             then [now podWorld + waitForDownload] else []).
Proof.
  split; [reflexivity|].
  apply (lease_after_request createFailsEnv podWorld). reflexivity.
Defined.

End VddkExtra.

(* ===================================================================== *)
(** * Requests and releases, interleaved: the proofs                      *)
(* ===================================================================== *)

Module ProgramProofs.
Import Program.
Local Open Scope nat_scope.

Lemma pcount_cons f p l : count f (p :: l) = Nat.b2n (f p) + count f l.
Proof. unfold count. simpl. destruct (f p); reflexivity. Qed.

Lemma pcount_app f l p : count f (l ++ [p]) = count f l + Nat.b2n (f p).
Proof.
  induction l as [|x l IH]; [rewrite app_nil_l, pcount_cons; unfold count; simpl; lia|].
  rewrite <- app_comm_cons, !pcount_cons, IH. lia.
Qed.

Lemma pcount_insert f (l : list pc) t p q :
  l !! t = Some p ->
  count f (<[t:=q]> l) + Nat.b2n (f p) = count f l + Nat.b2n (f q).
Proof.
  revert t. induction l as [|x l IH]; intros [|t] Hl; try discriminate.
  - injection Hl as ->. change (<[0:=q]> (p :: l)) with (q :: l).
    rewrite !pcount_cons. lia.
  - change (<[S t:=q]> (x :: l)) with (x :: <[t:=q]> l).
    rewrite !pcount_cons. specialize (IH t Hl). lia.
Qed.

Lemma pcount_pos f (l : list pc) t p :
  l !! t = Some p -> f p = true -> 0 < count f l.
Proof.
  revert t. induction l as [|x l IH]; intros [|t] Hl Hf; try discriminate.
  - injection Hl as ->. rewrite pcount_cons, Hf. simpl. lia.
  - rewrite pcount_cons. specialize (IH t Hl Hf). lia.
Qed.

Lemma pcount_none f (l : list pc) t p :
  count f l = 0 -> l !! t = Some p -> f p = false.
Proof.
  intros Hc Hl. destruct (f p) eqn:Hf; [|reflexivity].
  pose proof (pcount_pos f l t p Hl Hf). lia.
Qed.

Lemma pcount_pos_inv f (l : list pc) :
  0 < count f l -> exists t p, l !! t = Some p /\ f p = true.
Proof.
  induction l as [|x l IH]; intros H.
  - unfold count in H. simpl in H. lia.
  - rewrite pcount_cons in H. destruct (f x) eqn:Hx.
    + exists 0, x. split; [reflexivity | assumption].
    + simpl in H. destruct (IH H) as (t & p & Ht & Hp).
      exists (S t), p. split; assumption.
Qed.

Lemma pcount_replicate f p n : f p = false -> count f (replicate n p) = 0.
Proof.
  intros Hf. induction n as [|n IH]; [reflexivity|].
  simpl replicate. rewrite pcount_cons, Hf, IH. reflexivity.
Qed.

Lemma ptotal_insert (l : list pc) t p q :
  l !! t = Some p ->
  total (<[t:=q]> l) + weight p = total l + weight q.
Proof.
  revert t. induction l as [|x l IH]; intros [|t] Hl; try discriminate.
  - injection Hl as ->. unfold total. simpl. lia.
  - change (<[S t:=q]> (x :: l)) with (x :: <[t:=q]> l).
    unfold total in *. simpl. specialize (IH t Hl). lia.
Qed.

Lemma ptotal_app (l : list pc) p : total (l ++ [p]) = total l + weight p.
Proof.
  unfold total. rewrite map_app, list_sum_app. simpl. lia.
Qed.

Lemma pool_insert_cases (l : list pc) t q t' p' :
  <[t:=q]> l !! t' = Some p' ->
  (t' = t /\ p' = q) \/ (t' <> t /\ l !! t' = Some p').
Proof.
  intros H. destruct (decide (t' = t)) as [->|Hne].
  - left. split; [reflexivity|].
    assert (t < length l) as Hlt.
    { apply lookup_lt_Some in H. rewrite length_insert in H. exact H. }
    rewrite list_lookup_insert_eq in H by exact Hlt. congruence.
  - right. split; [exact Hne|].
    rewrite list_lookup_insert_ne in H by congruence. exact H.
Qed.

Lemma pool_app_cases (l : list pc) x t' p' :
  (l ++ [x]) !! t' = Some p' ->
  l !! t' = Some p' \/ (t' = length l /\ p' = x).
Proof.
  intros H. destruct (decide (t' < length l)) as [Hlt|Hge].
  - left. rewrite lookup_app_l in H by exact Hlt. exact H.
  - right. rewrite lookup_app_r in H by lia.
    destruct (t' - length l) as [|k] eqn:Hk; simpl in H; [|discriminate].
    injection H as <-. split; [lia | reflexivity].
Qed.

Lemma pool_insert_keeps (l : list pc) t q g p :
  l !! t = Some p -> p <> ReqReturned ->
  l !! g = Some ReqReturned -> <[t:=q]> l !! g = Some ReqReturned.
Proof.
  intros Hp Hne Hg. rewrite list_lookup_insert_ne; [exact Hg|].
  intros ->. rewrite Hp in Hg. congruence.
Qed.

Ltac other_thread H :=
  apply pool_insert_cases in H; destruct H as [[-> H]|[? H]].


(** A move that leaves flag and history variable alone. *)
Lemma inv_move s t p q lk :
  inv s -> pool s !! t = Some p ->
  p <> ReqReturned ->
  in_body q = in_body p -> pending q = pending p -> origin q = origin p ->
  (q = ReqSet -> isBusy s = false) ->
  (holds q = true -> lk = Some t) ->
  (holds q = false -> holds p = true -> lk = None) ->
  (holds q = false -> holds p = false -> lk = buildLock s) ->
  (holds q = true -> holds p = false -> buildLock s = None) ->
  inv (mkState (isBusy s) lk (setter s) (<[t:=q]> (pool s))).
Proof.
  intros [Hh He Hs Hc Hst Hb Hpd Ho] Hp Hret Eb Epd Eo Hset L1 L2 L3 L4.
  assert (t < length (pool s)) as Hlt by (eapply lookup_lt_Some; eauto).
  pose proof (pcount_insert in_body (pool s) t p q Hp) as Cb.
  pose proof (pcount_insert pending (pool s) t p q Hp) as Cp.
  rewrite Eb in Cb. rewrite Epd in Cp.
  constructor; simpl.
  - intros t0 Hlk. destruct (holds q) eqn:Hq.
    + rewrite (L1 eq_refl) in Hlk. injection Hlk as <-.
      exists q. split; [apply list_lookup_insert_eq; exact Hlt | exact Hq].
    + destruct (holds p) eqn:Hhp; [rewrite (L2 eq_refl eq_refl) in Hlk; discriminate|].
      rewrite (L3 eq_refl eq_refl) in Hlk.
      destruct (Hh t0 Hlk) as (p0 & Hp0 & Hh0). exists p0. split; [|exact Hh0].
      rewrite list_lookup_insert_ne; [exact Hp0|].
      intros <-. rewrite Hp in Hp0. injection Hp0 as <-. congruence.
  - intros t0 p0 H Hq. other_thread H.
    + subst p0. apply L1. exact Hq.
    + pose proof (He _ _ H Hq) as Hl0.
      destruct (holds q) eqn:Hhq, (holds p) eqn:Hhp.
      * pose proof (He _ _ Hp Hhp). congruence.
      * rewrite (L4 eq_refl eq_refl) in Hl0. discriminate.
      * pose proof (He _ _ Hp Hhp). congruence.
      * rewrite (L3 eq_refl eq_refl). exact Hl0.
  - intros t0 H. other_thread H.
    + apply Hset. congruence.
    + eapply Hs; exact H.
  - lia.
  - exact Hst.
  - intros t0 p0 H Hq. other_thread H.
    + subst p0. eapply Hb; [exact Hp | congruence].
    + eapply Hb; eauto.
  - intros t0 p0 g H Hq Hg. other_thread H.
    + subst p0. eapply Hpd; [exact Hp | congruence | congruence].
    + eapply Hpd; eauto.
  - intros t0 p0 g H Hg.
    eapply pool_insert_keeps; [exact Hp | exact Hret |].
    other_thread H.
    + subst p0. eapply Ho; [exact Hp | congruence].
    + eapply Ho; eauto.
Qed.


(** Line 68. *)
Lemma inv_set s t :
  inv s -> pool s !! t = Some ReqSet -> inv (store t true ReqUnlock s).
Proof.
  intros [Hh He Hs Hc Hst Hb Hpd Ho] Hp.
  assert (t < length (pool s)) as Hlt by (eapply lookup_lt_Some; eauto).
  pose proof (Hs t Hp) as HB. rewrite HB in Hc. simpl in Hc.
  pose proof (He t _ Hp eq_refl) as HL.
  pose proof (pcount_insert in_body (pool s) t _ ReqUnlock Hp) as Cb.
  pose proof (pcount_insert pending (pool s) t _ ReqUnlock Hp) as Cp.
  simpl in Cb, Cp.
  assert (count in_body (pool s) = 0) as Zb by lia.
  assert (count pending (pool s) = 0) as Zp by lia.
  unfold store. constructor; simpl.
  - intros t0 Hlk. rewrite HL in Hlk. injection Hlk as <-.
    exists ReqUnlock. split; [apply list_lookup_insert_eq; exact Hlt | reflexivity].
  - intros t0 p0 H Hq. other_thread H; [exact HL | eapply He; eauto].
  - intros t0 H. other_thread H; [discriminate|].
    pose proof (He _ _ H eq_refl). congruence.
  - lia.
  - discriminate.
  - intros t0 p0 H Hq. other_thread H; [reflexivity|].
    rewrite (pcount_none _ _ _ _ Zb H) in Hq. discriminate.
  - intros t0 p0 g H Hq Hg. other_thread H; [subst p0; discriminate|].
    rewrite (pcount_none _ _ _ _ Zp H) in Hq. discriminate.
  - intros t0 p0 g H Hg.
    eapply pool_insert_keeps; [exact Hp | discriminate |].
    other_thread H; [subst p0; discriminate | eapply Ho; eauto].
Qed.

(** Line 260. *)
Lemma inv_clear s t g :
  inv s -> pool s !! t = Some (RelClear g) -> inv (store t false (RelUnlock g) s).
Proof.
  intros [Hh He Hs Hc Hst Hb Hpd Ho] Hp.
  assert (t < length (pool s)) as Hlt by (eapply lookup_lt_Some; eauto).
  pose proof (He t _ Hp eq_refl) as HL.
  pose proof (pcount_insert in_body (pool s) t _ (RelUnlock g) Hp) as Cb.
  pose proof (pcount_insert pending (pool s) t _ (RelUnlock g) Hp) as Cp.
  simpl in Cb, Cp.
  assert (count in_body (<[t:=RelUnlock g]> (pool s)) = 0
          /\ count pending (<[t:=RelUnlock g]> (pool s)) = 0) as [Zb Zp].
  { destruct (isBusy s); simpl in Hc; lia. }
  unfold store. constructor; simpl.
  - intros t0 Hlk. rewrite HL in Hlk. injection Hlk as <-.
    exists (RelUnlock g). split; [apply list_lookup_insert_eq; exact Hlt | reflexivity].
  - intros t0 p0 H Hq. other_thread H; [exact HL | eapply He; eauto].
  - reflexivity.
  - lia.
  - reflexivity.
  - intros t0 p0 H Hq. rewrite (pcount_none _ _ _ _ Zb H) in Hq. discriminate.
  - intros t0 p0 g0 H Hq. rewrite (pcount_none _ _ _ _ Zp H) in Hq. discriminate.
  - intros t0 p0 g0 H Hg.
    eapply pool_insert_keeps; [exact Hp | discriminate |].
    other_thread H; [subst p0; eapply Ho; [exact Hp | exact Hg] | eapply Ho; eauto].
Qed.

(** The return of an admitted request, line 266. *)
Lemma inv_spawn s t :
  inv s -> pool s !! t = Some ReqBody -> inv (spawn t ReqReturned (RelSleep t) s).
Proof.
  intros [Hh He Hs Hc Hst Hb Hpd Ho] Hp.
  assert (t < length (pool s)) as Hlt by (eapply lookup_lt_Some; eauto).
  pose proof (Hb t _ Hp eq_refl) as Hset.
  pose proof (pcount_insert in_body (pool s) t _ ReqReturned Hp) as Cb.
  pose proof (pcount_insert pending (pool s) t _ ReqReturned Hp) as Cp.
  simpl in Cb, Cp.
  assert (forall t0 p0, (<[t:=ReqReturned]> (pool s) ++ [RelSleep t]) !! t0 = Some p0 ->
            (t0 = t /\ p0 = ReqReturned) \/ (t0 <> t /\ pool s !! t0 = Some p0)
            \/ (t0 = length (pool s) /\ p0 = RelSleep t)) as Hcases.
  { intros t0 p0 H. apply pool_app_cases in H as [H|[-> ->]].
    - other_thread H; [left; split; congruence | right; left; split; assumption].
    - right; right. rewrite length_insert. split; reflexivity. }
  assert (forall g, <[t:=ReqReturned]> (pool s) !! g = Some ReqReturned ->
            (<[t:=ReqReturned]> (pool s) ++ [RelSleep t]) !! g = Some ReqReturned) as Happ.
  { intros g Hg. rewrite lookup_app_l; [exact Hg|]. eapply lookup_lt_Some; eauto. }
  unfold spawn. constructor; simpl.
  - intros t0 Hlk. destruct (Hh t0 Hlk) as (p0 & Hp0 & Hh0). exists p0. split; [|exact Hh0].
    rewrite lookup_app_l by (rewrite length_insert; eapply lookup_lt_Some; eauto).
    rewrite list_lookup_insert_ne; [exact Hp0|].
    intros <-. rewrite Hp in Hp0. injection Hp0 as <-. discriminate.
  - intros t0 p0 H Hq. destruct (Hcases _ _ H) as [[-> ->]|[[Hne H']|[-> ->]]];
      [discriminate | eapply He; eauto | discriminate].
  - intros t0 H. destruct (Hcases _ _ H) as [[-> Hx]|[[Hne H']|[-> Hx]]];
      [discriminate | eapply Hs; eauto | discriminate].
  - rewrite !pcount_app. simpl. lia.
  - exact Hst.
  - intros t0 p0 H Hq. destruct (Hcases _ _ H) as [[-> ->]|[[Hne H']|[-> ->]]];
      [discriminate | eapply Hb; eauto | discriminate].
  - intros t0 p0 g H Hq Hg. destruct (Hcases _ _ H) as [[-> ->]|[[Hne H']|[-> ->]]];
      [discriminate | eapply Hpd; eauto | injection Hg as <-; exact Hset].
  - intros t0 p0 g H Hg. apply Happ.
    destruct (Hcases _ _ H) as [[-> ->]|[[Hne H']|[-> ->]]].
    + discriminate.
    + destruct (decide (g = t)) as [->|Hgt];
        [apply list_lookup_insert_eq; exact Hlt|].
      rewrite list_lookup_insert_ne by congruence. eapply Ho; eauto.
    + injection Hg as <-. apply list_lookup_insert_eq; exact Hlt.
Qed.

Lemma program_step_inv t s s' : inv s -> step t s = Next s' -> inv s'.
Proof.
  intros I Hstep. pose proof (inv_excl _ I) as He.
  unfold step in Hstep.
  destruct (pool s !! t) as [p|] eqn:Hp; [|discriminate].
  destruct p; try discriminate.
  - (* ReqLock *)
    unfold Lock in Hstep. destruct (buildLock s) eqn:HL; [discriminate|].
    injection Hstep as <-. eapply inv_move; [exact I | exact Hp | ..];
      try discriminate; try reflexivity; auto.
  - (* ReqCheck *)
    injection Hstep as <-. unfold goto.
    eapply inv_move; [exact I | exact Hp | ..]; try discriminate;
      destruct (isBusy s); try reflexivity; try discriminate;
      intros; apply (He _ _ Hp eq_refl).
  - (* ReqBusyUnlock *)
    unfold Unlock in Hstep. destruct (buildLock s) eqn:HL; [|discriminate].
    injection Hstep as <-. eapply inv_move; [exact I | exact Hp | ..];
      try discriminate; try reflexivity; auto.
  - (* ReqRespond *)
    injection Hstep as <-. unfold goto.
    eapply inv_move; [exact I | exact Hp | ..]; try discriminate; try reflexivity; auto.
  - (* ReqSet *)
    injection Hstep as <-. apply inv_set; assumption.
  - (* ReqUnlock *)
    unfold Unlock in Hstep. destruct (buildLock s) eqn:HL; [|discriminate].
    injection Hstep as <-. eapply inv_move; [exact I | exact Hp | ..];
      try discriminate; try reflexivity; auto.
  - (* ReqBody *)
    injection Hstep as <-. apply inv_spawn; assumption.
  - (* RelSleep *)
    injection Hstep as <-. unfold goto.
    eapply inv_move; [exact I | exact Hp | ..]; try discriminate; try reflexivity; auto.
  - (* RelLock *)
    unfold Lock in Hstep. destruct (buildLock s) eqn:HL; [discriminate|].
    injection Hstep as <-. eapply inv_move; [exact I | exact Hp | ..];
      try discriminate; try reflexivity; auto.
  - (* RelClear *)
    injection Hstep as <-. apply inv_clear; assumption.
  - (* RelUnlock *)
    unfold Unlock in Hstep. destruct (buildLock s) eqn:HL; [|discriminate].
    injection Hstep as <-. eapply inv_move; [exact I | exact Hp | ..];
      try discriminate; try reflexivity; auto.
Qed.

Lemma program_init_inv n : inv (init n).
Proof.
  assert (forall t p, replicate n ReqLock !! t = Some p -> p = ReqLock) as Hall.
  { intros t p H. apply lookup_replicate in H as [-> _]. reflexivity. }
  constructor; simpl.
  - discriminate.
  - intros t p H Hq. rewrite (Hall _ _ H) in Hq. discriminate.
  - intros; reflexivity.
  - rewrite !pcount_replicate by reflexivity. reflexivity.
  - reflexivity.
  - intros t p H Hq. rewrite (Hall _ _ H) in Hq. discriminate.
  - intros t p g H Hq. rewrite (Hall _ _ H) in Hq. discriminate.
  - intros t p g H Hq. rewrite (Hall _ _ H) in Hq. discriminate.
Qed.

Lemma program_run_inv sched : forall s, inv s -> inv (run sched s).
Proof.
  induction sched as [|t sched IH]; intros s I; simpl; [exact I|].
  apply IH. unfold turn. destruct (step t s) eqn:Hs; try exact I.
  eapply program_step_inv; eauto.
Qed.

Lemma program_run_init_inv n sched : inv (run sched (init n)).
Proof. apply program_run_inv, program_init_inv. Qed.

Lemma run_app sched sched' s : run (sched ++ sched') s = run sched' (run sched s).
Proof. unfold run. apply fold_left_app. Qed.

(** ** Consequences *)

Lemma program_no_fatal s t : inv s -> step t s <> Fatal.
Proof.
  intros I. unfold step. destruct (pool s !! t) as [p|] eqn:Hp; [|discriminate].
  destruct p; unfold Lock, Unlock; try discriminate;
    try (destruct (buildLock s); discriminate);
    rewrite (inv_excl _ I _ _ Hp eq_refl); discriminate.
Qed.

Lemma inv_not_stale s : inv s -> ~ stale s.
Proof.
  intros I (t & g & r & Hp & Hs & Hne).
  pose proof (inv_pending _ I t _ g Hp eq_refl eq_refl). congruence.
Qed.

Lemma inv_busy_pending s t p :
  inv s -> pool s !! t = Some p -> pending p = true -> isBusy s = true.
Proof.
  intros I Hp Hq. pose proof (inv_one _ I) as Hc.
  pose proof (pcount_pos pending _ _ _ Hp Hq).
  destruct (isBusy s); [reflexivity | simpl in Hc; lia].
Qed.

Lemma program_step_total t s s' : step t s = Next s' -> total (pool s') < total (pool s).
Proof.
  unfold step. destruct (pool s !! t) as [p|] eqn:Hp; [|discriminate].
  destruct p; unfold Lock, Unlock, goto, store, spawn;
    try discriminate; try (destruct (buildLock s); try discriminate);
    intros [= <-]; cbn [pool]; rewrite ?ptotal_app;
    match goal with |- context [<[_:=?q]> _] =>
      pose proof (ptotal_insert (pool s) t _ q Hp) as Hw end;
    try destruct (isBusy s); cbn [weight] in *; lia.
Qed.

Lemma forallb_false_pool (f : pc -> bool) (l : list pc) :
  forallb f l = false -> exists t p, l !! t = Some p /\ f p = false.
Proof.
  induction l as [|x l IH]; simpl; [discriminate|].
  destruct (f x) eqn:Hx; simpl.
  - intros H. destruct (IH H) as (t & p & Ht & Hp). exists (S t), p. auto.
  - intros _. exists 0, x. auto.
Qed.

Lemma pool_forallb (f : pc -> bool) (l : list pc) t p :
  forallb f l = true -> l !! t = Some p -> f p = true.
Proof.
  intros H Hl. rewrite forallb_forall in H. apply H.
  apply list_elem_of_In. eapply list_elem_of_lookup_2. exact Hl.
Qed.

Lemma program_progress s :
  inv s -> forallb final (pool s) = false -> exists t s', step t s = Next s'.
Proof.
  intros I Hnf. destruct (buildLock s) as [o|] eqn:HL.
  - destruct (inv_holder _ I o HL) as (p & Hp & Hh).
    exists o. unfold step. rewrite Hp.
    destruct p; try discriminate; unfold Unlock; rewrite ?HL; eauto.
  - destruct (forallb_false_pool _ _ Hnf) as (t & p & Hp & Hf).
    exists t. unfold step. rewrite Hp.
    destruct p; try discriminate; unfold Lock; rewrite ?HL; eauto;
      pose proof (inv_excl _ I _ _ Hp eq_refl); congruence.
Qed.

Lemma program_terminates n : forall s,
  inv s -> total (pool s) <= n ->
  exists sched, forallb final (pool (run sched s)) = true.
Proof.
  induction n as [|n IH]; intros s I Hn;
    (destruct (forallb final (pool s)) eqn:Hf; [exists []; exact Hf|]);
    destruct (program_progress _ I Hf) as (t & s' & Hs);
    pose proof (program_step_total _ _ _ Hs) as Ht; [lia|].
  destruct (IH s') as [sched Hsched]; [eapply program_step_inv; eauto | lia |].
  exists (t :: sched). simpl. unfold turn. rewrite Hs. exact Hsched.
Qed.

Lemma inv_quiescent s :
  inv s -> forallb final (pool s) = true -> isBusy s = false /\ buildLock s = None.
Proof.
  intros I Hf. split.
  - pose proof (inv_one _ I) as Hc. destruct (isBusy s); [|reflexivity].
    simpl in Hc. exfalso.
    assert (0 < count in_body (pool s) \/ 0 < count pending (pool s)) as [H|H] by lia;
      apply pcount_pos_inv in H as (t & p & Hp & Hq);
      pose proof (pool_forallb _ _ _ _ Hf Hp); destruct p; discriminate.
  - destruct (buildLock s) as [o|] eqn:HL; [|reflexivity]. exfalso.
    destruct (inv_holder _ I o HL) as (p & Hp & Hh).
    pose proof (pool_forallb _ _ _ _ Hf Hp). destruct p; discriminate.
Qed.


Lemma inv_lease_phase s :
  inv s ->
  (isBusy s = false /\ setter s = None
   /\ count in_body (pool s) = 0 /\ count pending (pool s) = 0)
  \/ (isBusy s = true /\ exists r, setter s = Some r /\
      ((exists p, pool s !! r = Some p /\ in_body p = true
                  /\ count in_body (pool s) = 1 /\ count pending (pool s) = 0)
       \/ (pool s !! r = Some ReqReturned
           /\ count in_body (pool s) = 0 /\ count pending (pool s) = 1
           /\ exists t p, pool s !! t = Some p /\ pending p = true
                          /\ origin p = Some r))).
Proof.
  intros I. pose proof (inv_one _ I) as Hc.
  destruct (isBusy s) eqn:HB; simpl in Hc.
  - right. split; [reflexivity|].
    destruct (count in_body (pool s)) as [|k] eqn:Cb.
    + destruct (pcount_pos_inv pending (pool s)) as (t & p & Hp & Hq); [lia|].
      assert (exists g, origin p = Some g) as [g Hg] by (destruct p; try discriminate; eauto).
      exists g. split; [eapply inv_pending; eauto|]. right.
      split; [eapply inv_origin; eauto|]. split; [reflexivity|]. split; [lia|]. eauto.
    + destruct (pcount_pos_inv in_body (pool s)) as (t & p & Hp & Hq); [lia|].
      exists t. split; [eapply inv_in_body; eauto|]. left.
      exists p. split; [exact Hp|]. split; [exact Hq|]. lia.
  - left. split; [reflexivity|]. split; [apply (inv_setter _ I HB)|]. lia.
Qed.

Lemma inv_releases_finish s :
  inv s ->
  exists sched, forallb final (pool (run sched s)) = true
                /\ isBusy (run sched s) = false /\ buildLock (run sched s) = None.
Proof.
  intros I. destruct (program_terminates (total (pool s)) s I) as [sched Hf]; [lia|].
  exists sched. split; [exact Hf|]. apply inv_quiescent; [apply program_run_inv; exact I | exact Hf].
Qed.

(** C5 as stated fails: no run of the package reaches a release that is
    about to clear a flag set by another request than the one that
    started it.  A release scheduled during an earlier cycle never fires
    into a later one, because a later cycle cannot begin before that
    release has cleared the flag. *)
Lemma no_release_is_stale : ~ (exists n sched, stale (run sched (init n))).
Proof.
  intros (n & sched & H). exact (inv_not_stale _ (program_run_init_inv n sched) H).
Qed.

(** C5, amended.  However many requests enter [BuildImage] and however
    they and the release goroutines they start are interleaved: a release
    that is about to execute line 260 holds the mutex, finds the flag set,
    and the flag was set by the very request that started the release,
    which has returned; at most one release is pending at any time, and
    none while a request is between line 68 and its return; no Unlock
    hits an unlocked mutex and no two goroutines are inside a critical
    section together.  [resetBusy] checks no generation, and none of the
    releases the package starts needs one. *)
Theorem release_clears_own_lease (n : nat) (sched : list nat) :
  (forall t g, pool (run sched (init n)) !! t = Some (RelClear g) ->
     buildLock (run sched (init n)) = Some t
     /\ isBusy (run sched (init n)) = true
     /\ setter (run sched (init n)) = Some g
     /\ pool (run sched (init n)) !! g = Some ReqReturned)
  /\ count in_body (pool (run sched (init n)))
     + count pending (pool (run sched (init n))) <= 1
  /\ (forall t, step t (run sched (init n)) <> Fatal)
  /\ (forall t t' p p', pool (run sched (init n)) !! t = Some p ->
        pool (run sched (init n)) !! t' = Some p' ->
        holds p = true -> holds p' = true -> t = t').
Proof.
  pose proof (program_run_init_inv n sched) as I. set (s := run sched (init n)) in *.
  split.
  { intros t g Hp. split; [apply (inv_excl _ I _ _ Hp eq_refl)|].
    split; [apply (inv_busy_pending _ _ _ I Hp eq_refl)|].
    split; [apply (inv_pending _ I _ _ _ Hp eq_refl eq_refl)|].
    apply (inv_origin _ I _ _ _ Hp eq_refl). }
  split.
  { rewrite (inv_one _ I). destruct (isBusy s); simpl; lia. }
  split; [intros t; apply program_no_fatal; exact I|].
  intros t t' p p' Hp Hp' Hh Hh'.
  pose proof (inv_excl _ I _ _ Hp Hh). pose proof (inv_excl _ I _ _ Hp' Hh'). congruence.
Qed.

(** Two requests, two cycles in a row: each flag is cleared by the
    release of the request that set it. *)
Example two_cycles_in_order :
  let sched := [0; 0; 0; 0; 0; 2; 2; 2; 2; 1; 1; 1; 1; 1; 3; 3; 3; 3] in
  run (take 7 sched) (init 2)
  = mkState true (Some 2) (Some 0) [ReqReturned; ReqLock; RelClear 0]
  /\ run (take 16 sched) (init 2)
     = mkState true (Some 3) (Some 1) [ReqReturned; ReqReturned; RelDone 0; RelClear 1]
  /\ run sched (init 2)
     = mkState false None None [ReqReturned; ReqReturned; RelDone 0; RelDone 1].
Proof. repeat split. Qed.

(** X10. The lease at any point of any run of the package is in one of
    three phases: idle, with no request in its body and no release
    pending; held by a request that is still running, with no release
    pending at all; or held after that request has returned, with the one
    release it has started pending.  From any point the goroutines can
    run to completion, and the lease is then idle with the mutex free. *)
Theorem lease_phases (n : nat) (sched : list nat) :
  ((isBusy (run sched (init n)) = false /\ setter (run sched (init n)) = None
    /\ count in_body (pool (run sched (init n))) = 0
    /\ count pending (pool (run sched (init n))) = 0)
   \/ (isBusy (run sched (init n)) = true /\
       exists r, setter (run sched (init n)) = Some r /\
         ((exists p, pool (run sched (init n)) !! r = Some p /\ in_body p = true
                     /\ count in_body (pool (run sched (init n))) = 1
                     /\ count pending (pool (run sched (init n))) = 0)
          \/ (pool (run sched (init n)) !! r = Some ReqReturned
              /\ count in_body (pool (run sched (init n))) = 0
              /\ count pending (pool (run sched (init n))) = 1
              /\ exists t p, pool (run sched (init n)) !! t = Some p
                             /\ pending p = true /\ origin p = Some r))))
  /\ exists sched', forallb final (pool (run sched' (run sched (init n)))) = true
                    /\ isBusy (run sched' (run sched (init n))) = false
                    /\ buildLock (run sched' (run sched (init n))) = None.
Proof.
  pose proof (program_run_init_inv n sched) as I.
  split; [apply inv_lease_phase; exact I | apply inv_releases_finish; exact I].
Qed.

(** A request in its body: the lease is held, the mutex is free, and no
    release exists yet; a second request that comes now is turned away. *)
Example lease_held_during_request :
  run [0; 0; 0; 0] (init 2) = mkState true None (Some 0) [ReqBody; ReqLock]
  /\ run [0; 0; 0; 0; 1; 1; 1; 1] (init 2)
     = mkState true None (Some 0)
         [ReqBody; ReqRejected StatusServiceUnavailable busyMessage].
Proof. repeat split. Qed.

End ProgramProofs.
